(** * WebSocketManager: the connection-lifecycle manager of EventRecorder.js

    A shallow embedding of [WebSocketManager] (src/EventRecorder.js, lines
    528-629): the closure variables of one manager instance, the callbacks it
    installs on its transport, its reconnection policy, its heartbeat timers
    and its public operations.  JavaScript runs every callback to completion
    on one thread, so the manager is a state machine whose steps are the
    tasks of the event loop: a transport callback, a timer that fires, a
    promise that settles, or a call of the public interface.

    The other parts of the file, [getUniqueSelector], the second
    [RecordAPI] and the recording functions of [EventRecorder], are
    embedded in the modules [Selector], [Api] and [Recorder]; the facts
    about them are in [SelectorFacts], [ApiFacts] and [RecorderFacts]. *)

From Stdlib Require Import PrimFloat Ascii.
From stdpp Require Import gmap strings list fin_maps pretty.


(** ** JavaScript values

    The values that cross the wire and that handlers produce.  Numbers are
    IEEE doubles; the manager never computes with a payload number. *)

#[local] Unset Elimination Schemes.
Inductive JsValue : Type :=
  | JUndefined
  | JNull
  | JBool (b : bool)
  | JNum (n : float)
  | JStr (s : string)
  | JArr (items : list JsValue)
  | JObj (fields : list (string * JsValue)).
#[local] Set Elimination Schemes.

(** Exceptions the manager can run into. *)
Inductive JsError : Type :=
  | TypeError          (* a property of null was read or set, or something
                          that is no function was called *)
  | SyntaxError        (* JSON.parse on a malformed frame *)
  | DOMException       (* the WebSocket constructor refused the url *)
  | InvalidStateError. (* send() on a transport that is still CONNECTING *)

(** A registered handler is an async function: calling it returns a promise
    and never throws.  The model keeps the identity of the function. *)
Definition Handler : Type := nat.

(** The function map is an object and has a prototype.  For a name that is
    no entry of its own, this is what [name in funcMap] followed by
    [funcMap[name](params).then(callback)] comes to:
    - the name is no property at all;
    - the inherited property is called, or is not callable, or returns
      something without a callable then: an exception;
    - the inherited function calls a function of the map with some argument
      and returns its promise, on which the callback is registered
      (toLocaleString calls the entry toString without arguments);
    - the inherited function returns the map itself, whose entry then is
      called with the callback as its argument (valueOf). *)
Inductive Inherited : Type :=
  | Absent
  | Raise (e : JsError)
  | Call (h : Handler) (arg : JsValue)
  | Pass (h : Handler).

(** Built-ins of the host that the manager calls but does not define.
    [JSON_parse] answers [None] where the built-in throws a SyntaxError;
    [ToString] is the conversion behind a computed property key, [None]
    where it throws a TypeError (an object whose toString and valueOf are
    no functions); [inherited] tells what the prototype chain of the
    function map, given its own entries, holds for a name. *)
Record JsEnv : Type := {
  JSON_parse : string -> option JsValue;
  JSON_stringify : JsValue -> string;
  ToString : JsValue -> option string;
  inherited : gmap string Handler -> string -> JsValue -> Inherited
}.

(** First match in the field list of an object. *)
Fixpoint assoc (k : string) (fields : list (string * JsValue)) : option JsValue :=
  match fields with
  | [] => None
  | (k', v) :: rest => if String.eqb k k' then Some v else assoc k rest
  end.

(** [d.k] for the envelope fields the manager reads (msg_type, func_name,
    params, id).  None of them lives on a built-in prototype, so a read on a
    primitive or an array yields undefined; a read on null throws, which
    [get_prop] below turns into a TypeError. *)
Definition prop (d : JsValue) (k : string) : JsValue :=
  match d with
  | JObj fields => default JUndefined (assoc k fields)
  | _ => JUndefined
  end.

Definition nullish (d : JsValue) : bool :=
  match d with
  | JUndefined | JNull => true
  | _ => false
  end.

(** [v === "tools"]: strict equality with a string literal. *)
Definition strict_eq_str (v : JsValue) (lit : string) : bool :=
  match v with
  | JStr s => String.eqb s lit
  | _ => false
  end.

(** The key of [k in obj] and [obj[k]]: a string is its own key, any other
    value goes through the host's string conversion. *)
Definition property_key (env : JsEnv) (v : JsValue) : option string :=
  match v with
  | JStr s => Some s
  | _ => ToString env v
  end.

(** ** Constructor arguments and host facts *)

Record Config : Type := {
  wsUrl : string;
  agentName : string;
  heartCheckTime : Z;
  (* ['WebSocket' in window] *)
  has_WebSocket : bool;
  (* whether [new WebSocket(wsUrl)] throws for this url *)
  ctor_throws : bool
}.

(** The default of the fourth constructor argument. *)
Definition default_heartCheckTime : Z := 59000.

(** The fixed policy constants of [reconnect]. *)
Definition reconnect_delay : Z := 2000.
Definition retry_cap : nat := 10.

(** ** Timers, observable actions, state *)

Inductive TimerAction : Type :=
  | ReconnectTimer     (* the arrow function of reconnect *)
  | ProbeTimer         (* the outer arrow function of heartCheck.start *)
  | ForceCloseTimer.   (* the inner arrow function of heartCheck.start *)

Record Timer : Type := { t_delay : Z; t_act : TimerAction }.

Inductive ConsoleLine : Type :=
  | LogClose
  | LogError
  | LogOpen
  | LogRecv (data : string)
  | ErrCaught (e : JsError).

(** What the manager does to the outside: calls on a transport (named by
    the order of construction), a handler call with the promise it returned,
    a timer request, a console line, and an exception or rejection that
    nobody catches.  [WsSend] is a call of [send] that returns: the host
    transmits the frame on an OPEN transport and discards it on one that is
    CLOSING or CLOSED.  [HandOver] is the call of a function of the map with
    the then-callback as its argument, [ThrownBack] an exception that leaves
    that callback into the function that called it. *)
Inductive Output : Type :=
  | WsNew (t : nat) (url : string)
  | WsSend (t : nat) (payload : string)
  | WsClose (t : nat)
  | Invoke (h : Handler) (params : JsValue) (p : nat)
  | SetTimeout (id : nat) (delay : Z) (act : TimerAction)
  | Console (line : ConsoleLine)
  | Uncaught (e : JsError)
  | UnhandledRejection (p : nat)
  | HandOver (h : Handler) (c : nat)
  | ThrownBack (c : nat) (e : JsError).

(** The closure variables of one manager (first seven fields) and the part
    of the host they refer to: pending timers, transports that carry the
    manager's callbacks, promises that carry the then-callback together with
    the [data] it closed over, the transports whose readyState is
    CONNECTING, and the then-callbacks handed to a function of the map,
    each with its [data]. *)
Record State : Type := mkState {
  lockReconnect : bool;
  retry : nat;
  ws : option nat;
  isClosed : bool;
  funcMap : gmap string Handler;
  timeoutObj : option nat;
  serverTimeoutObj : option nat;
  timers : gmap nat Timer;
  next_timer : nat;
  sockets : gset nat;
  next_ws : nat;
  promises : gmap nat JsValue;
  next_promise : nat;
  connecting : gset nat;
  callbacks : gmap nat JsValue
}.

Definition set_lockReconnect (b : bool) (s : State) : State :=
  mkState b (retry s) (ws s) (isClosed s) (funcMap s) (timeoutObj s)
    (serverTimeoutObj s) (timers s) (next_timer s) (sockets s) (next_ws s)
    (promises s) (next_promise s) (connecting s) (callbacks s).

Definition set_retry (n : nat) (s : State) : State :=
  mkState (lockReconnect s) n (ws s) (isClosed s) (funcMap s) (timeoutObj s)
    (serverTimeoutObj s) (timers s) (next_timer s) (sockets s) (next_ws s)
    (promises s) (next_promise s) (connecting s) (callbacks s).

Definition set_ws (w : option nat) (s : State) : State :=
  mkState (lockReconnect s) (retry s) w (isClosed s) (funcMap s)
    (timeoutObj s) (serverTimeoutObj s) (timers s) (next_timer s) (sockets s)
    (next_ws s) (promises s) (next_promise s) (connecting s) (callbacks s).

Definition set_isClosed (b : bool) (s : State) : State :=
  mkState (lockReconnect s) (retry s) (ws s) b (funcMap s) (timeoutObj s)
    (serverTimeoutObj s) (timers s) (next_timer s) (sockets s) (next_ws s)
    (promises s) (next_promise s) (connecting s) (callbacks s).

Definition set_funcMap (m : gmap string Handler) (s : State) : State :=
  mkState (lockReconnect s) (retry s) (ws s) (isClosed s) m (timeoutObj s)
    (serverTimeoutObj s) (timers s) (next_timer s) (sockets s) (next_ws s)
    (promises s) (next_promise s) (connecting s) (callbacks s).

Definition set_timeoutObj (o : option nat) (s : State) : State :=
  mkState (lockReconnect s) (retry s) (ws s) (isClosed s) (funcMap s) o
    (serverTimeoutObj s) (timers s) (next_timer s) (sockets s) (next_ws s)
    (promises s) (next_promise s) (connecting s) (callbacks s).

Definition set_serverTimeoutObj (o : option nat) (s : State) : State :=
  mkState (lockReconnect s) (retry s) (ws s) (isClosed s) (funcMap s)
    (timeoutObj s) o (timers s) (next_timer s) (sockets s) (next_ws s)
    (promises s) (next_promise s) (connecting s) (callbacks s).

Definition set_timers (m : gmap nat Timer) (n : nat) (s : State) : State :=
  mkState (lockReconnect s) (retry s) (ws s) (isClosed s) (funcMap s)
    (timeoutObj s) (serverTimeoutObj s) m n (sockets s) (next_ws s)
    (promises s) (next_promise s) (connecting s) (callbacks s).

Definition set_sockets (g : gset nat) (n : nat) (s : State) : State :=
  mkState (lockReconnect s) (retry s) (ws s) (isClosed s) (funcMap s)
    (timeoutObj s) (serverTimeoutObj s) (timers s) (next_timer s) g n
    (promises s) (next_promise s) (connecting s) (callbacks s).

Definition set_promises (m : gmap nat JsValue) (n : nat) (s : State) : State :=
  mkState (lockReconnect s) (retry s) (ws s) (isClosed s) (funcMap s)
    (timeoutObj s) (serverTimeoutObj s) (timers s) (next_timer s) (sockets s)
    (next_ws s) m n (connecting s) (callbacks s).

Definition set_connecting (g : gset nat) (s : State) : State :=
  mkState (lockReconnect s) (retry s) (ws s) (isClosed s) (funcMap s)
    (timeoutObj s) (serverTimeoutObj s) (timers s) (next_timer s) (sockets s)
    (next_ws s) (promises s) (next_promise s) g (callbacks s).

Definition set_callbacks (m : gmap nat JsValue) (n : nat) (s : State) : State :=
  mkState (lockReconnect s) (retry s) (ws s) (isClosed s) (funcMap s)
    (timeoutObj s) (serverTimeoutObj s) (timers s) (next_timer s) (sockets s)
    (next_ws s) (promises s) n (connecting s) m.

(** ** A task: state, log and exceptions

    A piece of JavaScript either completes or throws; both leave a state and
    the actions performed so far. *)

Inductive Res (A : Type) : Type :=
  | Ok (a : A) (s : State) (out : list Output)
  | Thrown (e : JsError) (s : State) (out : list Output).

Arguments Ok {A} a s out.
Arguments Thrown {A} e s out.

Definition M (A : Type) : Type := State -> Res A.

Definition ret {A} (a : A) : M A := fun s => Ok a s [].

Definition bind {A B} (m : M A) (k : A -> M B) : M B := fun s =>
  match m s with
  | Ok a s1 o1 =>
      match k a s1 with
      | Ok b s2 o2 => Ok b s2 (o1 ++ o2)
      | Thrown e s2 o2 => Thrown e s2 (o1 ++ o2)
      end
  | Thrown e s1 o1 => Thrown e s1 o1
  end.

Definition throw {A} (e : JsError) : M A := fun s => Thrown e s [].

(** [try { m } catch (e) { h e }] *)
Definition try_catch {A} (m : M A) (h : JsError -> M A) : M A := fun s =>
  match m s with
  | Ok a s1 o1 => Ok a s1 o1
  | Thrown e s1 o1 =>
      match h e s1 with
      | Ok b s2 o2 => Ok b s2 (o1 ++ o2)
      | Thrown e' s2 o2 => Thrown e' s2 (o1 ++ o2)
      end
  end.

Definition gets {A} (f : State -> A) : M A := fun s => Ok (f s) s [].
Definition modify (f : State -> State) : M unit := fun s => Ok tt (f s) [].
Definition emit (o : Output) : M unit := fun s => Ok tt s [o].

Declare Scope js_scope.
Delimit Scope js_scope with js.
Notation "x <- m ;; k" := (bind m (fun x => k))
  (at level 100, m at next level, right associativity) : js_scope.
Notation "m ;; k" := (bind m (fun _ => k))
  (at level 100, right associativity) : js_scope.
Local Open Scope js_scope.

(** ** The host's timer and transport primitives *)

(** [setTimeout(act, delay)]: a fresh handle, the timer pending. *)
Definition arm (act : TimerAction) (delay : Z) (s : State) : State :=
  set_timers
    (<[next_timer s := {| t_delay := delay; t_act := act |}]> (timers s))
    (S (next_timer s)) s.

Definition setTimeout (act : TimerAction) (delay : Z) : M nat := fun s =>
  Ok (next_timer s) (arm act delay s) [SetTimeout (next_timer s) delay act].

(** [clearTimeout(h)]: nothing happens for null or for a handle that is no
    longer pending. *)
Definition cancel (h : option nat) (s : State) : State :=
  set_timers
    (match h with
     | Some id => delete id (timers s)
     | None => timers s
     end)
    (next_timer s) s.

Definition clearTimeout (h : option nat) : M unit := modify (cancel h).

(** The readyState of transport [t] is no longer CONNECTING: the host has
    opened it, or closed it, or [close()] was called on it. *)
Definition not_connecting (t : nat) (s : State) : State :=
  set_connecting (connecting s ∖ {[t]}) s.

(** [ws.send(payload)] on the variable [ws]: a TypeError when it holds
    null, the host's InvalidStateError when the transport it holds is still
    CONNECTING; in every other readyState the call returns. *)
Definition ws_send (payload : string) : M unit :=
  w <- gets ws ;;
  match w with
  | Some t =>
      c <- gets connecting ;;
      if decide (t ∈ c) then throw InvalidStateError
      else emit (WsSend t payload)
  | None => throw TypeError
  end.

(** [ws.close()] on the variable [ws]: a TypeError when it holds null; it
    never throws on a transport, and one that was CONNECTING or OPEN is
    CLOSING from then on. *)
Definition ws_close : M unit :=
  w <- gets ws ;;
  match w with
  | Some t => emit (WsClose t) ;; modify (not_connecting t)
  | None => throw TypeError
  end.

(** Property read that throws on null and undefined. *)
Definition get_prop (d : JsValue) (k : string) : M JsValue :=
  if nullish d then throw TypeError else ret (prop d k).

(** ** Frames *)

Definition dq : string := String "034"%char EmptyString.
Definition quoted (s : string) : string := dq +:+ s +:+ dq.

(** The template literal of ws.onopen, with the agent name spliced in. *)
Definition intro_frame (agent : string) : string :=
  "{" +:+ quoted "msg_type" +:+ ": " +:+ quoted "first_conn" +:+ ","
      +:+ quoted "agent" +:+ ": " +:+ dq +:+ agent +:+ dq +:+ "}".

(** The object literal [answerResp] of the then-callback. *)
Definition answerResp (agent : string) (data func_result : JsValue) : JsValue :=
  JObj [ ("id", prop data "id");
         ("msg_type", JStr "tools_result");
         ("agent", JStr agent);
         ("func_result", func_result) ].

Section Manager.

Variable cfg : Config.
Variable env : JsEnv.

(** ** heartCheck *)

Definition heartCheck_reset : M unit :=
  (h1 <- gets timeoutObj ;;
   clearTimeout h1 ;;
   h2 <- gets serverTimeoutObj ;;
   clearTimeout h2)%js.

Definition heartCheck_start : M unit :=
  (id <- setTimeout ProbeTimer (heartCheckTime cfg) ;;
   modify (set_timeoutObj (Some id)))%js.

(** ** reconnect *)

Definition reconnect : M unit :=
  (modify (fun s => set_retry (S (retry s)) s) ;;
   lock <- gets lockReconnect ;;
   n <- gets retry ;;
   if lock || (retry_cap <? n)%nat then ret tt
   else
     modify (set_lockReconnect true) ;;
     _ <- setTimeout ReconnectTimer reconnect_delay ;;
     ret tt)%js.

(** ** createWebSocket and initEventHandle *)

(** [new WebSocket(wsUrl)]: the transport starts out CONNECTING. *)
Definition new_WebSocket : M nat := fun s =>
  if ctor_throws cfg then Thrown DOMException s []
  else
    let t := next_ws s in
    Ok t (set_connecting ({[t]} ∪ connecting s) (set_sockets (sockets s) (S t) s))
       [WsNew t (wsUrl cfg)].

(** The four assignments [ws.onclose = ...] to [ws.onmessage = ...]: they
    throw when [ws] is null, else the transport carries the callbacks. *)
Definition initEventHandle : M unit :=
  (w <- gets ws ;;
   match w with
   | None => throw TypeError
   | Some t => modify (fun s => set_sockets ({[t]} ∪ sockets s) (next_ws s) s)
   end)%js.

Definition createWebSocket : M unit :=
  try_catch
    ((if has_WebSocket cfg
      then t <- new_WebSocket ;; modify (set_ws (Some t))
      else ret tt) ;;
     initEventHandle)%js
    (fun e => reconnect ;; emit (Console (ErrCaught e)))%js.

(** ** The transport callbacks *)

Definition onclose : M unit :=
  (reconnect ;; emit (Console LogClose))%js.

Definition onerror : M unit :=
  (emit (Console LogError) ;; reconnect)%js.

Definition onopen : M unit :=
  (heartCheck_reset ;; heartCheck_start ;;
   ws_send (intro_frame (agentName cfg)) ;;
   emit (Console LogOpen))%js.

(** A call [f(arg)] of an async function of the map, then [.then(cb)]: the
    promise is fresh and keeps the [data] its callback closed over. *)
Definition call_then (h : Handler) (arg data : JsValue) : M unit := fun s =>
  let p := next_promise s in
  Ok tt (set_promises (<[p := data]> (promises s)) (S p) s) [Invoke h arg p].

(** The callback is the argument of a function of the map: the function
    holds it from then on, with the [data] it closed over. *)
Definition hand_over (h : Handler) (data : JsValue) : M unit := fun s =>
  let c := next_promise s in
  Ok tt (set_callbacks (<[c := data]> (callbacks s)) (S c) s) [HandOver h c].

(** [data.func_name in funcMap] and, where it holds,
    [funcMap[data.func_name](data.params).then(callback)]: an entry of the
    map is found first, what the map inherits after it. *)
Definition call_entry (data : JsValue) : M unit :=
  (match property_key env (prop data "func_name") with
   | None => throw TypeError
   | Some k =>
       fm <- gets funcMap ;;
       match fm !! k with
       | Some h => call_then h (prop data "params") data
       | None =>
           match inherited env fm k (prop data "params") with
           | Absent => ret tt
           | Raise e => throw e
           | Call h arg => call_then h arg data
           | Pass h => hand_over h data
           end
       end
   end)%js.

Definition onmessage (raw : string) : M unit :=
  (heartCheck_reset ;; heartCheck_start ;;
   emit (Console (LogRecv raw)) ;;
   if String.eqb raw "pong" then ret tt
   else
     match JSON_parse env raw with
     | None => throw SyntaxError
     | Some data =>
         mt <- get_prop data "msg_type" ;;
         if strict_eq_str mt "tools" then call_entry data
         else ret tt
     end)%js.

(** The arrow function passed to [.then]. *)
Definition then_callback (data func_result : JsValue) : M unit :=
  ws_send (JSON_stringify env (answerResp (agentName cfg) data func_result)).

(** ** The timer callbacks *)

Definition timer_callback (act : TimerAction) : M unit :=
  match act with
  | ReconnectTimer =>
      (createWebSocket ;; modify (set_lockReconnect false))%js
  | ProbeTimer =>
      (ws_send "ping" ;;
       id <- setTimeout ForceCloseTimer (heartCheckTime cfg) ;;
       modify (set_serverTimeoutObj (Some id)))%js
  | ForceCloseTimer => ws_close
  end.

(** ** The public interface

    [close] and [addFunc].  The third operation, [status], only reads the
    readyState that the host keeps for the transport and changes nothing;
    it is left out. *)

Definition close : M unit :=
  (modify (set_isClosed true) ;;
   w <- gets ws ;;
   match w with
   | Some _ => ws_close ;; modify (set_ws None)
   | None => ret tt
   end)%js.

Definition addFunc (name : string) (func : Handler) : M unit :=
  modify (fun s => set_funcMap (<[name := func]> (funcMap s)) s).

(** ** The event loop *)

Inductive Event : Type :=
  | EvOpen (t : nat)
  | EvMessage (t : nat) (raw : string)
  | EvError (t : nat)
  | EvClose (t : nat)
  | EvTimer (id : nat)
  | EvResolve (p : nat) (func_result : JsValue)
  | EvReject (p : nat)
  | CallClose
  | CallAddFunc (name : string) (func : Handler)
  | EvCallback (c : nat) (func_result : JsValue).

(** A task run from the event loop: an exception it lets escape is reported
    by the host and goes nowhere else. *)
Definition task (m : M unit) (s : State) : State * list Output :=
  match m s with
  | Ok _ s' out => (s', out)
  | Thrown e s' out => (s', out ++ [Uncaught e])
  end.

(** A then-callback that throws rejects the promise [.then] returned, on
    which nothing is registered. *)
Definition reaction (p : nat) (m : M unit) (s : State) : State * list Output :=
  match m s with
  | Ok _ s' out => (s', out)
  | Thrown e s' out => (s', out ++ [UnhandledRejection p])
  end.

(** The then-callback called by the function it was handed to: an
    exception goes back into that function. *)
Definition called (c : nat) (m : M unit) (s : State) : State * list Output :=
  match m s with
  | Ok _ s' out => (s', out)
  | Thrown e s' out => (s', out ++ [ThrownBack c e])
  end.

(** A promise settles once: its reaction leaves the host's job list. *)
Definition settle (p : nat) (s : State) : State :=
  set_promises (delete p (promises s)) (next_promise s) s.

(** One task.  An event the host cannot deliver changes nothing: a callback
    of a transport that carries none, a timer that is not pending, a promise
    that is settled or unknown, a callback that was handed to nobody.  When
    the host runs a callback of a transport, the readyState of that
    transport is no longer CONNECTING: it is OPEN for the open and message
    events and CLOSED for the error and close events. *)
Definition step (s : State) (ev : Event) : State * list Output :=
  match ev with
  | EvOpen t =>
      if decide (t ∈ sockets s) then task onopen (not_connecting t s)
      else (s, [])
  | EvMessage t raw =>
      if decide (t ∈ sockets s) then task (onmessage raw) (not_connecting t s)
      else (s, [])
  | EvError t =>
      if decide (t ∈ sockets s) then task onerror (not_connecting t s)
      else (s, [])
  | EvClose t =>
      if decide (t ∈ sockets s) then task onclose (not_connecting t s)
      else (s, [])
  | EvTimer id =>
      match timers s !! id with
      | Some tm =>
          (* the timer leaves the pending list, then its callback runs *)
          task (timer_callback (t_act tm)) (cancel (Some id) s)
      | None => (s, [])
      end
  | EvResolve p v =>
      match promises s !! p with
      | Some data => reaction p (then_callback data v) (settle p s)
      | None => (s, [])
      end
  | EvReject p =>
      match promises s !! p with
      | Some _ => (settle p s, [UnhandledRejection p])
      | None => (s, [])
      end
  | CallClose => task close s
  | CallAddFunc name func => task (addFunc name func) s
  | EvCallback c v =>
      match callbacks s !! c with
      | Some data => called c (then_callback data v) s
      | None => (s, [])
      end
  end.

Fixpoint run (s : State) (tr : list Event) : State * list Output :=
  match tr with
  | [] => (s, [])
  | ev :: rest =>
      let '(s1, o1) := step s ev in
      let '(s2, o2) := run s1 rest in
      (s2, o1 ++ o2)
  end.

(** The body of [WebSocketManager]: the variables initialised, then the
    call [createWebSocket(wsUrl)]. *)
Definition blank (fm : gmap string Handler) : State :=
  mkState false 0 None false fm None None ∅ 0 ∅ 0 ∅ 0 ∅ ∅.

Definition WebSocketManager (fm : gmap string Handler) : State * list Output :=
  task createWebSocket (blank fm).

End Manager.

(** The introduction frame as the wire format of the spec writes it. *)
Definition spec_intro_frame (agent : string) : string :=
  "{" +:+ quoted "msg_type" +:+ ":" +:+ quoted "first_conn" +:+ ","
      +:+ quoted "agent" +:+ ":" +:+ quoted agent +:+ "}".

(** * A concrete manager *)

Definition cfg0 : Config :=
  {| wsUrl := "ws://localhost:8765";
     agentName := "A1";
     heartCheckTime := default_heartCheckTime;
     has_WebSocket := true;
     ctor_throws := false |}.

Definition fm0 : gmap string Handler := {[ "ping_tool" := 0 ]}.

Definition req_frame : string :=
  "{" +:+ quoted "msg_type" +:+ ":" +:+ quoted "tools" +:+ ","
      +:+ quoted "id" +:+ ":7,"
      +:+ quoted "func_name" +:+ ":" +:+ quoted "ping_tool" +:+ ","
      +:+ quoted "params" +:+ ":{}}".

Definition req_data : JsValue :=
  JObj [ ("msg_type", JStr "tools"); ("id", JNum 7%float);
         ("func_name", JStr "ping_tool"); ("params", JObj []) ].

Definition unknown_frame : string :=
  "{" +:+ quoted "msg_type" +:+ ":" +:+ quoted "tools" +:+ ","
      +:+ quoted "id" +:+ ":8,"
      +:+ quoted "func_name" +:+ ":" +:+ quoted "nope" +:+ ","
      +:+ quoted "params" +:+ ":{}}".

Definition unknown_data : JsValue :=
  JObj [ ("msg_type", JStr "tools"); ("id", JNum 8%float);
         ("func_name", JStr "nope"); ("params", JObj []) ].

Definition resp_frame : string :=
  "{" +:+ quoted "id" +:+ ":7,"
      +:+ quoted "msg_type" +:+ ":" +:+ quoted "tools_result" +:+ ","
      +:+ quoted "agent" +:+ ":" +:+ quoted "A1" +:+ ","
      +:+ quoted "func_result" +:+ ":" +:+ quoted "ok" +:+ "}".

(** A request for a name that no entry of the map has, but every object
    inherits. *)
Definition inherited_frame : string :=
  "{" +:+ quoted "msg_type" +:+ ":" +:+ quoted "tools" +:+ ","
      +:+ quoted "id" +:+ ":9,"
      +:+ quoted "func_name" +:+ ":" +:+ quoted "toString" +:+ ","
      +:+ quoted "params" +:+ ":{}}".

Definition inherited_data : JsValue :=
  JObj [ ("msg_type", JStr "tools"); ("id", JNum 9%float);
         ("func_name", JStr "toString"); ("params", JObj []) ].

(** A request for valueOf, which every object inherits and which returns
    the object it is called on. *)
Definition valueOf_frame : string :=
  "{" +:+ quoted "msg_type" +:+ ":" +:+ quoted "tools" +:+ ","
      +:+ quoted "id" +:+ ":7,"
      +:+ quoted "func_name" +:+ ":" +:+ quoted "valueOf" +:+ ","
      +:+ quoted "params" +:+ ":{}}".

Definition valueOf_data : JsValue :=
  JObj [ ("msg_type", JStr "tools"); ("id", JNum 7%float);
         ("func_name", JStr "valueOf"); ("params", JObj []) ].

(** A function map with an entry named then. *)
Definition fm_then : gmap string Handler := {[ "then" := 5 ]}.

(** The property names of Object.prototype. *)
Definition Object_prototype : list string :=
  [ "constructor"; "__defineGetter__"; "__defineSetter__"; "hasOwnProperty";
    "__lookupGetter__"; "__lookupSetter__"; "isPrototypeOf";
    "propertyIsEnumerable"; "toString"; "valueOf"; "__proto__";
    "toLocaleString" ].

(** What a function map inherits when it was written as an object literal
    and Object.prototype is as the language defines it.  toLocaleString
    calls the toString of the map, which is an entry of the map if there is
    one; valueOf returns the map, whose then is an entry of the map if there
    is one; every other member is no function (__proto__), throws for its
    arguments (__defineGetter__, __defineSetter__) or returns a value whose
    then is no function, so that the call of then throws. *)
Definition plain_object (own : gmap string Handler) (name : string)
    (params : JsValue) : Inherited :=
  if String.eqb name "toLocaleString" then
    match own !! "toString" with
    | Some h => Call h JUndefined
    | None => Raise TypeError
    end
  else if String.eqb name "valueOf" then
    match own !! "then" with
    | Some h => Pass h
    | None => Raise TypeError
    end
  else if existsb (String.eqb name) Object_prototype then Raise TypeError
  else Absent.

(** A stand-in for the built-ins, good for the frames above. *)
Definition env0 : JsEnv :=
  {| JSON_parse := fun raw =>
       if String.eqb raw req_frame then Some req_data
       else if String.eqb raw unknown_frame then Some unknown_data
       else if String.eqb raw inherited_frame then Some inherited_data
       else if String.eqb raw valueOf_frame then Some valueOf_data
       else None;
     JSON_stringify := fun _ => resp_frame;
     ToString := fun _ => Some "[object Object]";
     inherited := plain_object |}.

(** The manager just constructed, and after a trace of events. *)
Definition start0 : State := (WebSocketManager cfg0 fm0).1.

Definition after (tr : list Event) : State := (run cfg0 env0 start0 tr).1.

(** Rounds of: the transport fails with one error signal, the reconnect
    timer fires. *)
Definition rounds (n : nat) : list Event :=
  flat_map (fun i => [EvError i; EvTimer i]) (seq 0 n).

(** The same, with an error and a close for each failed transport. *)
Definition double_rounds (n : nat) : list Event :=
  flat_map (fun i => [EvError i; EvClose i; EvTimer i]) (seq 0 n).

(** A manager whose url the constructor refuses. *)
Definition cfg_bad_url : Config :=
  {| wsUrl := "localhost";
     agentName := "A1";
     heartCheckTime := default_heartCheckTime;
     has_WebSocket := true;
     ctor_throws := true |}.


(** * getUniqueSelector: the selector the recorder stores for an element

    [getUniqueSelector] (src/EventRecorder.js, lines 233-298 and again
    461-526) with its two inner functions.  An element comes with the part
    of the document the function looks at: its previous and following
    element siblings, and its chain of parent elements.  What a selector
    matches in the document is the host's business. *)

Module Selector.

Record Element : Type := {
  tagName : string;
  id : string;
  classList : list string;
  (* [element.value], undefined where the element has none *)
  value : JsValue
}.

(** An element in its parent: [previous] are its previous element siblings,
    the nearest first, as [previousElementSibling] walks them; [following] the
    following ones. *)
Record Located : Type := {
  self : Element;
  previous : list Element;
  following : list Element
}.

(** [parent.children] of a located element's parent. *)
Definition children (loc : Located) : list Element :=
  rev (previous loc) ++ self loc :: following loc.

(** An element reference: the element first, then its parent elements up
    to the one that has none; the empty list is null. *)
Definition Ref : Type := list Located.

Record Dom : Type := {
  CSS_escape : string -> string;
  (* [document.querySelectorAll(sel).length]; [None] where it throws *)
  querySelectorAll_length : string -> option nat;
  toLowerCase : string -> string
}.

Inductive Warning : Type :=
  | InvalidId (sel : string)
  | InvalidClass (sel : string).

(** [hay.includes(needle)] *)
Fixpoint includes (needle hay : string) : bool :=
  String.prefix needle hay
  || match hay with
     | EmptyString => false
     | String _ rest => includes needle rest
     end.

(** The filter of step 2. *)
Definition usable_class (str : string) : bool :=
  negb (includes ":" str) && negb (includes "[" str) && negb (includes "focus" str).

(** The loop of [getElementIndex], started with [index] at the previous
    sibling. *)
Fixpoint count_same (tag : string) (index : nat) (siblings : list Element) : nat :=
  match siblings with
  | [] => index
  | sibling :: rest =>
      count_same tag (if String.eqb (tagName sibling) tag then S index else index) rest
  end.

Definition getElementIndex (el : Located) : nat :=
  count_same (tagName (self el)) 1 (previous el).

Section WithDom.

Variable dom : Dom.

(** The last component of the path: the tag, with its position among the
    children of the same tag when the parent has several. *)
Definition path_step (el : Located) (has_parent : bool) : string :=
  let selector := toLowerCase dom (tagName (self el)) in
  if has_parent then
    let sameTagSiblings :=
      List.filter (fun child => String.eqb (tagName child) (tagName (self el)))
        (children el) in
    if (1 <? length sameTagSiblings)%nat
    then selector +:+ ":nth-of-type(" +:+ pretty (getElementIndex el) +:+ ")"
    else selector
  else selector.

(** [getPath], with [getUniqueSelector] for the call on the parent. *)
Definition getPath (getUniqueSelector : Ref -> string * list Warning)
    (el : Ref) : string * list Warning :=
  match el with
  | [] => ("html", [])
  | loc :: parent =>
      if String.eqb (toLowerCase dom (tagName (self loc))) "html"
      then ("html", [])
      else
        let '(up, warned) := getUniqueSelector parent in
        (up +:+ " > "
            +:+ path_step loc match parent with [] => false | _ => true end,
         warned)
  end.

(** Step 1: the id selector when exactly one element matches it. *)
Definition by_id (el : Element) : option string * list Warning :=
  if String.eqb (id el) "" then (None, [])
  else
    let idSelector := "#" +:+ CSS_escape dom (id el) in
    match querySelectorAll_length dom idSelector with
    | Some 1 => (Some idSelector, [])
    | Some _ => (None, [])
    | None => (None, [InvalidId idSelector])
    end.

(** Step 2: the class selector when exactly one element matches it. *)
Definition by_class (el : Element) : option string * list Warning :=
  if (0 <? length (classList el))%nat then
    let filteredClasses :=
      map (CSS_escape dom) (List.filter usable_class (classList el)) in
    if (0 <? length filteredClasses)%nat then
      let className := "." +:+ String.concat "." filteredClasses in
      match querySelectorAll_length dom className with
      | Some 1 => (Some className, [])
      | Some _ => (None, [])
      | None => (None, [InvalidClass className])
      end
    else (None, [])
  else (None, []).

Fixpoint getUniqueSelector (element : Ref) : string * list Warning :=
  match element with
  | [] => ("", [])
  | loc :: _ =>
      match by_id (self loc) with
      | (Some idSelector, w1) => (idSelector, w1)
      | (None, w1) =>
          match by_class (self loc) with
          | (Some className, w2) => (className, w1 ++ w2)
          | (None, w2) =>
              let '(path, w3) := getPath getUniqueSelector element in
              (path, w1 ++ w2 ++ w3)
          end
      end
  end.

(** ** Notions for stating what the selector depends on *)

(** The element with the classes that step 2 filters out removed, and the
    same for a located element and its siblings. *)
Definition strip_el (el : Element) : Element :=
  {| tagName := tagName el; id := id el;
     classList := List.filter usable_class (classList el);
     value := value el |}.

Definition strip_loc (loc : Located) : Located :=
  {| self := strip_el (self loc);
     previous := map strip_el (previous loc);
     following := map strip_el (following loc) |}.

(** The element is html, or step 1 or step 2 finds a selector for it. *)
Definition anchors (loc : Located) : bool :=
  match (by_id (self loc)).1, (by_class (self loc)).1 with
  | Some _, _ => true
  | None, Some _ => true
  | None, None => String.eqb (toLowerCase dom (tagName (self loc))) "html"
  end.

Definition same_tag (tag : string) (child : Element) : bool :=
  String.eqb (tagName child) tag.

End WithDom.

(** ** A document to run the selector on *)

Definition lower (c : ascii) : ascii :=
  let n := nat_of_ascii c in
  if ((65 <=? n) && (n <=? 90))%nat then ascii_of_nat (n + 32) else c.

Fixpoint lowercase (s : string) : string :=
  match s with
  | EmptyString => EmptyString
  | String c rest => String (lower c) (lowercase rest)
  end.

(** A page in which only the id main is carried by exactly one element. *)
Definition dom0 : Dom :=
  {| CSS_escape := fun s => s;
     querySelectorAll_length := fun sel =>
       if String.eqb sel "#main" then Some 1 else Some 2;
     toLowerCase := lowercase |}.

Definition plain (tag : string) : Element :=
  {| tagName := tag; id := EmptyString; classList := []; value := JUndefined |}.

Definition html0 : Located := {| self := plain "HTML"; previous := []; following := [] |}.
Definition body0 : Located := {| self := plain "BODY"; previous := [plain "HEAD"]; following := [] |}.

Definition main0 : Located :=
  {| self := {| tagName := "DIV"; id := "main"; classList := ["box"];
                value := JUndefined |};
     previous := []; following := [plain "DIV"] |}.

(** The second input of three in the main division. *)
Definition input0 : Located :=
  {| self := {| tagName := "INPUT"; id := EmptyString;
                classList := ["hover:bg"; "field"]; value := JStr "abc" |};
     previous := [plain "INPUT"]; following := [plain "INPUT"; plain "SPAN"] |}.

Definition input_ref : Ref := [input0; main0; body0; html0].

End Selector.

(** * RecordAPI: the client of the record service

    The second definition of [RecordAPI] (src/EventRecorder.js, lines
    317-352).  Its one function is async: it runs to the call of [fetch]
    within the caller's task and goes on when the response is there.  The
    closure variable [baseUrl] is the state that the calls share. *)

Module Api.

(** The first argument of [requestEventRecordsApi]: [Get], [Insert] and
    [Delete] are its only callers and pass these three literals. *)
Inductive Method : Type := GET | POST | DELETE.

(** The arguments of [fetch]; the headers are the same in every request. *)
Record Request : Type := {
  url : string;
  method : Method;
  body : option string
}.

(** What [fetch] and [response.json()] come back with. *)
Inductive Response : Type :=
  | FetchFailed                                   (* fetch rejects *)
  | Answer (ok : bool) (status : nat) (json : option JsValue).

Inductive Failure : Type :=
  | NetworkError
  | HttpError (status : nat)
  | BodyError.

Section WithHost.

Variable env : JsEnv.
(** [new URLSearchParams(requestParams).toString()] *)
Variable URLSearchParams_toString : JsValue -> string.

(** [baseUrl.includes('?') ? '&' : '?'] *)
Definition separator (baseUrl : string) : string :=
  if Selector.includes "?" baseUrl then "&" else "?".

(** [requestEventRecordsApi] up to the call of [fetch]: the new value of
    [baseUrl] and the request. *)
Definition requestEventRecordsApi (method_ : Method) (requestParams : JsValue)
    (baseUrl : string) : string * Request :=
  match method_ with
  | GET =>
      let queryParams := URLSearchParams_toString requestParams in
      let baseUrl := baseUrl +:+ separator baseUrl +:+ queryParams in
      (baseUrl,
       {| url := baseUrl +:+ "/api/record"; method := method_; body := None |})
  | _ =>
      (baseUrl,
       {| url := baseUrl +:+ "/api/record"; method := method_;
          body := Some (JSON_stringify env requestParams) |})
  end.

(** [requestEventRecordsApi] from the response on: the value the promise
    resolves with, or the error that is logged and thrown again. *)
Definition respond (r : Response) : JsValue + Failure :=
  match r with
  | FetchFailed => inr NetworkError
  | Answer false status _ => inr (HttpError status)
  | Answer true _ None => inr BodyError
  | Answer true _ (Some v) => inl v
  end.

Definition Get (requestParams : JsValue) := requestEventRecordsApi GET requestParams.
Definition Insert (requestParams : JsValue) := requestEventRecordsApi POST requestParams.
Definition Delete (requestParams : JsValue) := requestEventRecordsApi DELETE requestParams.

(** A sequence of calls on one client. *)
Fixpoint calls (cs : list (Method * JsValue)) (baseUrl : string)
    : string * list Request :=
  match cs with
  | [] => (baseUrl, [])
  | (m, requestParams) :: rest =>
      let '(baseUrl, r) := requestEventRecordsApi m requestParams baseUrl in
      let '(baseUrl, rs) := calls rest baseUrl in
      (baseUrl, r :: rs)
  end.

(** The query strings of the GET calls among [cs], in order. *)
Definition queries (cs : list (Method * JsValue)) : list string :=
  flat_map (fun c => match c.1 with
                     | GET => [URLSearchParams_toString c.2]
                     | _ => []
                     end) cs.

End WithHost.

(** ** A client at work *)

Definition query0 (requestParams : JsValue) : string :=
  match prop requestParams "name" with
  | JStr s => "name=" +:+ s
  | _ => EmptyString
  end.

Definition base0 : string := "http://localhost:5000".
Definition replay0 : JsValue := JObj [("name", JStr "login")].

(** What [Insert] asks for after one [Get]. *)
Definition save0 : Request :=
  (Insert env0 query0 JNull (Get env0 query0 replay0 base0).1).2.

End Api.

(** * EventRecorder: recording what the user does

    [startRecording], [stopRecording] and [handleEvent] of [EventRecorder]
    (src/EventRecorder.js, lines 69-122 and again 369-422) over the closure
    variables [isRecording] and [actions].  The two definitions in the file
    differ in one place: the second hands [Insert] the JSON text of the
    request instead of the request. *)

Module Recorder.

Inductive Copy : Type := First | Second.

Record Action : Type := {
  type : string;
  selector : string;
  value : JsValue;
  timestamp : float
}.

(** The part of an event that [handleEvent] reads; a null target is the
    empty reference. *)
Record DomEvent : Type := {
  event_type : string;
  target : Selector.Ref
}.

Inductive Line : Type :=
  | StartRecoding
  | StopRecodingEnd
  | GetEvent (event : DomEvent) (isRecording : bool)
  | RecordEvent (action : Action)
  | SendRequest (requestParams : JsValue)
  | SendRequestError.

Inductive Effect : Type :=
  | Log (line : Line)
  | Warn (w : Selector.Warning)
  | Prompt
  | InsertCall (requestParams : JsValue)
  | Alert
  | Throw (e : JsError).

Record Closure : Type := {
  isRecording : bool;
  actions : list Action
}.

(** The left operand of [||] decides. *)
Definition truthy (v : JsValue) : bool :=
  match v with
  | JUndefined | JNull => false
  | JBool b => b
  | JNum n => negb (PrimFloat.eqb n 0 || PrimFloat.is_nan n)
  | JStr s => negb (String.eqb s "")
  | JArr _ | JObj _ => true
  end.

(** An action as it goes into the request. *)
Definition action_value (a : Action) : JsValue :=
  JObj [("type", JStr (type a)); ("selector", JStr (selector a));
        ("value", value a); ("timestamp", JNum (timestamp a))].

Section WithHost.

Variable copy : Copy.
Variable env : JsEnv.
Variable dom : Selector.Dom.

Definition startRecording (s : Closure) : Closure * list Effect :=
  ({| isRecording := true; actions := [] |}, [Log StartRecoding]).

(** The argument of [Insert]. *)
Definition requestParams (functionName : string) (steps : list Action) : JsValue :=
  let request :=
    JObj [("name", JStr functionName); ("steps", JArr (map action_value steps))] in
  match copy with
  | First => request
  | Second => JStr (JSON_stringify env request)
  end.

(** [functionName] is what [prompt] returns: null when the user cancels. *)
Definition stopRecording (functionName : option string) (s : Closure)
    : Closure * list Effect :=
  let s := {| isRecording := false; actions := actions s |} in
  match functionName with
  | None => (s, [Log StopRecodingEnd; Prompt])
  | Some name =>
      if String.eqb name "" then (s, [Log StopRecodingEnd; Prompt])
      else
        (s, [Log StopRecodingEnd; Prompt;
             InsertCall (requestParams name (actions s))])
  end.

(** The action that [handleEvent] builds for an element, with the warnings
    of the selector; [now] is what [Date.now()] returns. *)
Definition action_of (event : DomEvent) (now : float)
    : Action * list Selector.Warning :=
  let '(selector, warned) := Selector.getUniqueSelector dom (target event) in
  let v := match target event with
           | loc :: _ => Selector.value (Selector.self loc)
           | [] => JUndefined
           end in
  ({| type := event_type event;
      selector := selector;
      value := if truthy v then v else JStr "";
      timestamp := now |},
   warned).

Definition handleEvent (event : DomEvent) (now : float) (s : Closure)
    : Closure * list Effect :=
  if negb (isRecording s) then (s, [])
  else
    match target event with
    | [] => (s, [Log (GetEvent event (isRecording s)); Throw TypeError])
    | loc :: _ =>
        if String.eqb (Selector.id (Selector.self loc)) "stopRecord"
        then (s, [Log (GetEvent event (isRecording s))])
        else
          let '(action, warned) := action_of event now in
          ({| isRecording := isRecording s; actions := actions s ++ [action] |},
           Log (GetEvent event (isRecording s)) :: map Warn warned
             ++ [Log (RecordEvent action)])
    end.

(** The callbacks that [stopRecording] leaves on the promise of [Insert]. *)
Definition saved (params : JsValue) (s : Closure) : Closure * list Effect :=
  (s, [Log (SendRequest params); Alert]).

Definition save_failed (s : Closure) : Closure * list Effect :=
  (s, [Log SendRequestError]).

(** The tasks in which the recorder runs. *)
Inductive RecorderTask : Type :=
  | StartRecording
  | StopRecording (functionName : option string)
  | HandleEvent (event : DomEvent) (now : float)
  | Saved (params : JsValue)
  | SaveFailed.

Definition perform (s : Closure) (t : RecorderTask) : Closure * list Effect :=
  match t with
  | StartRecording => startRecording s
  | StopRecording functionName => stopRecording functionName s
  | HandleEvent event now => handleEvent event now s
  | Saved params => saved params s
  | SaveFailed => save_failed s
  end.

Fixpoint perform_all (s : Closure) (tasks : list RecorderTask) : Closure * list Effect :=
  match tasks with
  | [] => (s, [])
  | t :: rest =>
      let '(s1, out1) := perform s t in
      let '(s2, out2) := perform_all s1 rest in
      (s2, out1 ++ out2)
  end.

Definition EventRecorder : Closure := {| isRecording := false; actions := [] |}.

(** The requests handed to [Insert] in a log. *)
Definition inserts (out : list Effect) : list JsValue :=
  omap (fun e => match e with InsertCall p => Some p | _ => None end) out.

(** Whether [handleEvent] records an event while recording is on. *)
Definition recordable (event : DomEvent) : bool :=
  match target event with
  | [] => false
  | loc :: _ => negb (String.eqb (Selector.id (Selector.self loc)) "stopRecord")
  end.

Definition handled (events : list (DomEvent * float)) : list RecorderTask :=
  map (fun e => HandleEvent e.1 e.2) events.

Definition recorded (events : list (DomEvent * float)) : list Action :=
  map (fun e => (action_of e.1 e.2).1) (List.filter (fun e => recordable e.1) events).

(** The value of an action is what the element holds, or the empty text. *)
Definition value_ok (a : Action) : Prop :=
  truthy (value a) = true \/ value a = JStr "".

End WithHost.

(** ** A session at work *)

Definition stop_button : Selector.Located :=
  {| Selector.self :=
       {| Selector.tagName := "BUTTON"; Selector.id := "stopRecord";
          Selector.classList := []; Selector.value := JUndefined |};
     Selector.previous := [Selector.plain "BUTTON"];
     Selector.following := [Selector.plain "UL"] |}.

(** Typing into the input, then the click on the stop button. *)
Definition events0 : list (DomEvent * float) :=
  [({| event_type := "input"; target := Selector.input_ref |}, 1000%float);
   ({| event_type := "click";
       target := [stop_button; Selector.body0; Selector.html0] |}, 2000%float)].

Definition typed0 : Action :=
  {| type := "input"; selector := "#main > input:nth-of-type(2)";
     value := JStr "abc"; timestamp := 1000%float |}.

End Recorder.

(** * Reasoning about the manager *)

Section Properties.

Variable cfg : Config.
Variable env : JsEnv.

(** ** Summaries, invariants and measures *)

(** The state after [heartCheck.reset()], after [heartCheck.start()], and
    after both. *)
Definition reset_st (s : State) : State :=
  cancel (serverTimeoutObj s) (cancel (timeoutObj s) s).

Definition start_st (s : State) : State :=
  set_timeoutObj (Some (next_timer s)) (arm ProbeTimer (heartCheckTime cfg) s).

Definition restart_st (s : State) : State := start_st (reset_st s).

(** Whether a call of [reconnect] in state [s] passes the guard. *)
Definition schedules (s : State) : bool :=
  negb (lockReconnect s || (retry_cap <? S (retry s))%nat).

(** The state and the log that a call of [reconnect] leaves. *)
Definition reconnect_st (s : State) : State :=
  if schedules s
  then arm ReconnectTimer reconnect_delay
         (set_lockReconnect true (set_retry (S (retry s)) s))
  else set_retry (S (retry s)) s.

Definition reconnect_out (s : State) : list Output :=
  if schedules s
  then [SetTimeout (next_timer s) reconnect_delay ReconnectTimer]
  else [].

(** Whether [createWebSocket] in state [s] ends in its catch block, and
    with which exception. *)
Definition connect_fails (s : State) : option JsError :=
  if has_WebSocket cfg
  then (if ctor_throws cfg then Some DOMException else None)
  else match ws s with
       | None => Some TypeError
       | Some _ => None
       end.

(** The state and the log that a call of [createWebSocket] leaves. *)
Definition connect_st (s : State) : State :=
  match connect_fails s with
  | Some _ => reconnect_st s
  | None =>
      if has_WebSocket cfg
      then set_sockets ({[next_ws s]} ∪ sockets s) (S (next_ws s))
             (set_ws (Some (next_ws s))
                (set_connecting ({[next_ws s]} ∪ connecting s) s))
      else set_sockets (from_option (fun t => {[t]} ∪ sockets s) (sockets s) (ws s))
             (next_ws s) s
  end.

Definition connect_out (s : State) : list Output :=
  match connect_fails s with
  | Some e => reconnect_out s ++ [Console (ErrCaught e)]
  | None => if has_WebSocket cfg then [WsNew (next_ws s) (wsUrl cfg)] else []
  end.

(** What a frame comes to once the heartbeat is restarted and the frame is
    logged: nothing more, an exception, the call of a function of the map
    with the then-callback registered on its promise, or the call of a
    function of the map with the then-callback as its argument. *)
Inductive Request : Type :=
  | NoRequest
  | Broken (e : JsError)
  | Calls (h : Handler) (arg data : JsValue)
  | Hands (h : Handler) (data : JsValue).

(** The lookup of [data.func_name] in the function map. *)
Definition lookup_entry (fm : gmap string Handler) (data : JsValue) : Request :=
  match property_key env (prop data "func_name") with
  | None => Broken TypeError
  | Some k =>
      match fm !! k with
      | Some h => Calls h (prop data "params") data
      | None =>
          match inherited env fm k (prop data "params") with
          | Absent => NoRequest
          | Raise e => Broken e
          | Call h arg => Calls h arg data
          | Pass h => Hands h data
          end
      end
  end.

Definition dispatch (fm : gmap string Handler) (raw : string) : Request :=
  if String.eqb raw "pong" then NoRequest
  else
    match JSON_parse env raw with
    | None => Broken SyntaxError
    | Some data =>
        if nullish data then Broken TypeError
        else if strict_eq_str (prop data "msg_type") "tools"
        then lookup_entry fm data
        else NoRequest
    end.

(** The state that [onmessage] leaves, and its log after the two entries
    every frame produces. *)
Definition msg_st (raw : string) (s : State) : State :=
  match dispatch (funcMap s) raw with
  | Calls _ _ data =>
      set_promises (<[next_promise s := data]> (promises s))
        (S (next_promise s)) (restart_st s)
  | Hands _ data =>
      set_callbacks (<[next_promise s := data]> (callbacks s))
        (S (next_promise s)) (restart_st s)
  | _ => restart_st s
  end.

Definition msg_out (raw : string) (s : State) : list Output :=
  match dispatch (funcMap s) raw with
  | Calls h arg _ => [Invoke h arg (next_promise s)]
  | Hands h _ => [HandOver h (next_promise s)]
  | Broken e => [Uncaught e]
  | NoRequest => []
  end.

(** The calls of a function of the map. *)
Definition is_call (o : Output) : bool :=
  match o with
  | Invoke _ _ _ | HandOver _ _ => true
  | _ => false
  end.

(** What a call of [ws.send] in state [s] leaves in the log of a task. *)
Definition send_out (s : State) (payload : string) (more : list Output)
    (escapes : JsError -> Output) : list Output :=
  match ws s with
  | Some w =>
      if decide (w ∈ connecting s) then [escapes InvalidStateError]
      else WsSend w payload :: more
  | None => [escapes TypeError]
  end.

(** What holds of the pending timers between two tasks: handles are below
    the host's counter; a pending reconnect timer is unique, has the fixed
    delay and holds the lock; a pending probe is the one [timeoutObj]
    names, a pending force-close the one [serverTimeoutObj] names, both
    with the configured delay, and never both at once. *)
Record timers_ok (s : State) : Prop := {
  tok_fresh : forall id tm, timers s !! id = Some tm -> id < next_timer s;
  tok_handles : forall id,
    timeoutObj s = Some id \/ serverTimeoutObj s = Some id -> id < next_timer s;
  tok_lock : forall id tm,
    timers s !! id = Some tm -> t_act tm = ReconnectTimer ->
    lockReconnect s = true /\ t_delay tm = reconnect_delay;
  tok_one : forall id id' tm tm',
    timers s !! id = Some tm -> timers s !! id' = Some tm' ->
    t_act tm = ReconnectTimer -> t_act tm' = ReconnectTimer -> id = id';
  tok_probe : forall id tm,
    timers s !! id = Some tm -> t_act tm = ProbeTimer ->
    timeoutObj s = Some id /\ t_delay tm = heartCheckTime cfg;
  tok_force : forall id tm,
    timers s !! id = Some tm -> t_act tm = ForceCloseTimer ->
    serverTimeoutObj s = Some id /\ t_delay tm = heartCheckTime cfg;
  tok_excl : forall id id' tm tm',
    timers s !! id = Some tm -> timers s !! id' = Some tm' ->
    t_act tm = ProbeTimer -> t_act tm' = ForceCloseTimer -> False;
  tok_locked :
    lockReconnect s = true ->
    exists id tm, timers s !! id = Some tm /\ t_act tm = ReconnectTimer;
  tok_to : forall id tm,
    timeoutObj s = Some id -> timers s !! id = Some tm -> t_act tm = ProbeTimer;
  tok_sto : forall id tm,
    serverTimeoutObj s = Some id -> timers s !! id = Some tm ->
    t_act tm = ForceCloseTimer
}.

(** No heartbeat timer is pending. *)
Definition heart_idle (s : State) : Prop :=
  forall id tm, timers s !! id = Some tm -> t_act tm = ReconnectTimer.

(** A state the manager can be in: constructed, then any sequence of tasks. *)
Definition reachable (s : State) : Prop :=
  exists fm tr, s = (run cfg env (WebSocketManager cfg fm).1 tr).1.

(** Pending promises are below the host's counter. *)
Definition promises_ok (s : State) : Prop :=
  forall p d, promises s !! p = Some d -> p < next_promise s.

(** A connection attempt is a call of [createWebSocket]; it shows as the
    construction of a transport or as the console line of the catch block. *)
Definition is_attempt (o : Output) : bool :=
  match o with
  | WsNew _ _ => true
  | Console (ErrCaught _) => true
  | _ => false
  end.

Definition attempts (out : list Output) : nat :=
  length (List.filter is_attempt out).

Definition is_reconnect_request (o : Output) : bool :=
  match o with
  | SetTimeout _ _ ReconnectTimer => true
  | _ => false
  end.

(** Reconnect timers requested in a log. *)
Definition requests (out : list Output) : nat :=
  length (List.filter is_reconnect_request out).




(** An error or close callback of a transport that carries the callbacks. *)
Definition failure_signal (s : State) (ev : Event) : Prop :=
  exists t, t ∈ sockets s /\ (ev = EvError t \/ ev = EvClose t).


(** The event settles promise [p]. *)
Definition settles (p : nat) (ev : Event) : Prop :=
  ev = EvReject p \/ exists v, ev = EvResolve p v.

(** Promise [p] was created and is no longer pending. *)
Definition settled (p : nat) (s : State) : Prop :=
  p < next_promise s /\ promises s !! p = None.

(** The failure signals one task feeds to [reconnect]: an error or close
    callback of a transport, or a connection attempt that ends in the catch
    block while the reconnect timer runs. *)
Definition signals (s : State) (ev : Event) : nat :=
  match ev with
  | EvError t | EvClose t => if decide (t ∈ sockets s) then 1 else 0
  | EvTimer id =>
      match timers s !! id with
      | Some tm =>
          match t_act tm, connect_fails (cancel (Some id) s) with
          | ReconnectTimer, Some _ => 1
          | _, _ => 0
          end
      | None => 0
      end
  | _ => 0
  end.

(** No transport exists and none is held. *)
Definition disconnected (s : State) : Prop := ws s = None /\ sockets s = ∅.

(** ** The callbacks in closed form *)

Lemma heartCheck_reset_eq s : heartCheck_reset s = Ok tt (reset_st s) [].
Proof. reflexivity. Qed.

Lemma heartCheck_start_eq s :
  heartCheck_start cfg s
  = Ok tt (start_st s) [SetTimeout (next_timer s) (heartCheckTime cfg) ProbeTimer].
Proof. reflexivity. Qed.

Lemma reconnect_eq s : reconnect s = Ok tt (reconnect_st s) (reconnect_out s).
Proof.
  unfold reconnect, reconnect_st, reconnect_out, schedules, bind, modify, gets.
  cbn. destruct (lockReconnect s || _); reflexivity.
Qed.

#[local] Arguments reconnect : simpl never.

Lemma createWebSocket_eq s :
  createWebSocket cfg s = Ok tt (connect_st s) (connect_out s).
Proof.
  unfold createWebSocket, connect_st, connect_out, connect_fails, try_catch,
    bind, new_WebSocket, initEventHandle.
  destruct (has_WebSocket cfg), (ctor_throws cfg); cbn;
    rewrite ?reconnect_eq; cbn; try reflexivity.
  all: destruct (ws s); cbn; rewrite ?reconnect_eq; reflexivity.
Qed.

#[local] Arguments createWebSocket : simpl never.
#[local] Arguments heartCheck_reset : simpl never.
#[local] Arguments heartCheck_start : simpl never.

Lemma step_open s t :
  t ∈ sockets s ->
  step cfg env s (EvOpen t)
  = (not_connecting t (restart_st s),
     SetTimeout (next_timer s) (heartCheckTime cfg) ProbeTimer ::
     send_out (not_connecting t s) (intro_frame (agentName cfg))
       [Console LogOpen] Uncaught).
Proof.
  intros Ht. unfold step. rewrite decide_True by done.
  unfold task, onopen, bind, send_out.
  rewrite heartCheck_reset_eq, heartCheck_start_eq. cbn.
  destruct (ws s) as [w|]; [|reflexivity]. cbn.
  destruct (decide (w ∈ connecting s ∖ {[t]})); reflexivity.
Qed.

Lemma step_message s t raw :
  t ∈ sockets s ->
  step cfg env s (EvMessage t raw)
  = (not_connecting t (msg_st raw s),
     SetTimeout (next_timer s) (heartCheckTime cfg) ProbeTimer ::
     Console (LogRecv raw) :: msg_out raw s).
Proof.
  intros Ht. unfold step. rewrite decide_True by done.
  unfold task, onmessage, msg_st, msg_out, dispatch, bind.
  rewrite heartCheck_reset_eq, heartCheck_start_eq. cbn.
  destruct (String.eqb raw "pong"); [reflexivity|].
  destruct (JSON_parse env raw) as [data|]; [|reflexivity].
  unfold get_prop. destruct (nullish data); [reflexivity|]. cbn.
  destruct (strict_eq_str _ _); [|reflexivity].
  unfold call_entry, lookup_entry.
  destruct (property_key env _) as [k|]; [|reflexivity]. cbn.
  destruct (funcMap s !! k); [reflexivity|].
  destruct (inherited env _ _ _); reflexivity.
Qed.

Lemma step_error s t :
  t ∈ sockets s ->
  step cfg env s (EvError t)
  = (not_connecting t (reconnect_st s), Console LogError :: reconnect_out s).
Proof.
  intros Ht. unfold step. rewrite decide_True by done.
  unfold task, onerror, bind. cbn. rewrite reconnect_eq.
  unfold reconnect_st, reconnect_out, schedules. cbn.
  destruct (negb _); reflexivity.
Qed.

Lemma step_close s t :
  t ∈ sockets s ->
  step cfg env s (EvClose t)
  = (not_connecting t (reconnect_st s), reconnect_out s ++ [Console LogClose]).
Proof.
  intros Ht. unfold step. rewrite decide_True by done.
  unfold task, onclose, bind. rewrite reconnect_eq.
  unfold reconnect_st, reconnect_out, schedules. cbn.
  destruct (negb _); reflexivity.
Qed.

Lemma step_foreign s t ev :
  t ∉ sockets s ->
  ev = EvOpen t \/ (exists raw, ev = EvMessage t raw) \/ ev = EvError t \/ ev = EvClose t ->
  step cfg env s ev = (s, []).
Proof.
  intros Ht [->|[[raw ->]|[->| ->]]]; unfold step; by rewrite decide_False.
Qed.

Lemma step_timer s id tm :
  timers s !! id = Some tm ->
  step cfg env s (EvTimer id)
  = match t_act tm with
    | ReconnectTimer =>
        (set_lockReconnect false (connect_st (cancel (Some id) s)),
         connect_out (cancel (Some id) s))
    | ProbeTimer =>
        match ws s with
        | Some w =>
            if decide (w ∈ connecting s)
            then (cancel (Some id) s, [Uncaught InvalidStateError])
            else
              (set_serverTimeoutObj (Some (next_timer s))
                 (arm ForceCloseTimer (heartCheckTime cfg) (cancel (Some id) s)),
               [WsSend w "ping";
                SetTimeout (next_timer s) (heartCheckTime cfg) ForceCloseTimer])
        | None => (cancel (Some id) s, [Uncaught TypeError])
        end
    | ForceCloseTimer =>
        match ws s with
        | Some w => (not_connecting w (cancel (Some id) s), [WsClose w])
        | None => (cancel (Some id) s, [Uncaught TypeError])
        end
    end.
Proof.
  intros Hid. unfold step. rewrite Hid.
  unfold task, timer_callback, bind.
  destruct (t_act tm).
  - rewrite createWebSocket_eq. cbn. by rewrite app_nil_r.
  - unfold ws_send, bind. cbn. destruct (ws s) as [w|]; [|reflexivity]. cbn.
    destruct (decide (w ∈ connecting s)); reflexivity.
  - unfold ws_close, bind. cbn. destruct (ws s); reflexivity.
Qed.

Lemma step_resolve s p data v :
  promises s !! p = Some data ->
  step cfg env s (EvResolve p v)
  = (settle p s,
     send_out s (JSON_stringify env (answerResp (agentName cfg) data v)) []
       (fun _ => UnhandledRejection p)).
Proof.
  intros Hp. unfold step. rewrite Hp.
  unfold reaction, then_callback, ws_send, send_out, bind. cbn.
  destruct (ws s) as [w|]; [|reflexivity]. cbn.
  destruct (decide (w ∈ connecting s)); reflexivity.
Qed.

Lemma step_reject s p data :
  promises s !! p = Some data ->
  step cfg env s (EvReject p) = (settle p s, [UnhandledRejection p]).
Proof. intros Hp. unfold step. by rewrite Hp. Qed.

Lemma step_callClose s :
  step cfg env s CallClose
  = match ws s with
    | Some w => (set_ws None (not_connecting w (set_isClosed true s)), [WsClose w])
    | None => (set_isClosed true s, [])
    end.
Proof.
  unfold step, task, close, ws_close, bind, gets. cbn.
  destruct (ws s) as [w|] eqn:E; cbn; rewrite ?E; reflexivity.
Qed.

Lemma step_addFunc s name func :
  step cfg env s (CallAddFunc name func)
  = (set_funcMap (<[name := func]> (funcMap s)) s, []).
Proof. reflexivity. Qed.

Lemma step_callback s c data v :
  callbacks s !! c = Some data ->
  step cfg env s (EvCallback c v)
  = (s,
     send_out s (JSON_stringify env (answerResp (agentName cfg) data v)) []
       (ThrownBack c)).
Proof.
  intros Hc. unfold step. rewrite Hc.
  unfold called, then_callback, ws_send, send_out, bind. cbn.
  destruct (ws s) as [w|]; [|reflexivity]. cbn.
  destruct (decide (w ∈ connecting s)); reflexivity.
Qed.

(** A log of [send_out] holds no timer request, no transport and no
    console line of a catch block, and its frames are the payload. *)
Lemma send_out_cases s payload more escapes :
  (send_out s payload more escapes = [escapes TypeError] /\ ws s = None) \/
  (exists w, ws s = Some w /\ w ∈ connecting s /\
     send_out s payload more escapes = [escapes InvalidStateError]) \/
  (exists w, ws s = Some w /\ (w ∉ connecting s) /\
     send_out s payload more escapes = WsSend w payload :: more).
Proof.
  unfold send_out. destruct (ws s) as [w|]; [|by left].
  right. destruct (decide (w ∈ connecting s)); [left|right]; by exists w.
Qed.

(** ** Invariants of the timer list *)

Ltac pending_cases :=
  repeat match goal with
  | H : <[_ := _]> _ !! _ = Some _ |- _ =>
      apply lookup_insert_Some in H as [[<- <-]|[? H]]
  | H : delete _ _ !! _ = Some _ |- _ =>
      apply lookup_delete_Some in H as [? H]
  end.

Lemma timers_ok_ext s s' :
  timers s' = timers s -> next_timer s' = next_timer s ->
  lockReconnect s' = lockReconnect s -> timeoutObj s' = timeoutObj s ->
  serverTimeoutObj s' = serverTimeoutObj s ->
  timers_ok s -> timers_ok s'.
Proof.
  intros E1 E2 E3 E4 E5 [T1 T2 T3 T4 T5 T6 T7 T8 T9 T10].
  split; rewrite ?E1, ?E2, ?E3, ?E4, ?E5; assumption.
Qed.

Lemma timers_ok_cancel h s :
  timers_ok s ->
  (forall id tm, h = Some id -> timers s !! id = Some tm ->
                 t_act tm <> ReconnectTimer) ->
  timers_ok (cancel h s).
Proof.
  intros [T1 T2 T3 T4 T5 T6 T7 T8 T9 T10] Hh.
  destruct h as [i|]; split; cbn; intros; pending_cases; eauto.
  destruct (T8 ltac:(done)) as (id & tm & Hid & Hact).
  exists id, tm. split; [|done]. apply lookup_delete_Some. split; [|done].
  intros ->. by eapply Hh.
Qed.

Lemma timers_ok_reset s : timers_ok s -> timers_ok (reset_st s).
Proof.
  intros Hok. unfold reset_st. apply timers_ok_cancel.
  - apply timers_ok_cancel; [done|].
    intros id tm Hto Hid Hact. pose proof (tok_to _ Hok _ _ Hto Hid). congruence.
  - cbn. intros id tm Hsto Hid Hact.
    assert (timers s !! id = Some tm) as H0
      by (destruct (timeoutObj s); pending_cases; done).
    pose proof (tok_sto _ Hok _ _ Hsto H0). congruence.
Qed.

Lemma reset_heart_idle s : timers_ok s -> heart_idle (reset_st s).
Proof.
  intros [T1 T2 T3 T4 T5 T6 T7 T8 T9 T10] id tm. unfold reset_st. cbn.
  intros Hid. destruct (t_act tm) eqn:Hact; [done| |].
  - assert (timers s !! id = Some tm) as H0
      by (destruct (serverTimeoutObj s), (timeoutObj s); pending_cases; done).
    destruct (T5 _ _ H0 Hact) as [Hto _]. rewrite Hto in Hid.
    destruct (serverTimeoutObj s); pending_cases; done.
  - assert (timers s !! id = Some tm) as H0
      by (destruct (serverTimeoutObj s), (timeoutObj s); pending_cases; done).
    destruct (T6 _ _ H0 Hact) as [Hto _]. rewrite Hto in Hid.
    pending_cases; done.
Qed.

Lemma timers_ok_start s :
  timers_ok s -> heart_idle s -> timers_ok (start_st s).
Proof.
  intros [T1 T2 T3 T4 T5 T6 T7 T8 T9 T10] Hidle.
  split; cbn.
  - intros id tm H. pending_cases; [lia|]. apply T1 in H. lia.
  - intros id [H|H]; [simplify_eq; lia|]. specialize (T2 id (or_intror H)). lia.
  - intros id tm H Hact. pending_cases; [done|]. eauto.
  - intros id id' tm tm' H H' Hact Hact'. pending_cases; try done. eauto.
  - intros id tm H Hact. pending_cases; [done|].
    apply Hidle in H. congruence.
  - intros id tm H Hact. pending_cases; [done|].
    apply Hidle in H. congruence.
  - intros id id' tm tm' H H' Hact Hact'. pending_cases; try done.
    + apply Hidle in H'. congruence.
    + apply Hidle in H'. congruence.
  - intros Hlock. destruct (T8 Hlock) as (id & tm & Hid & Hact).
    exists id, tm. split; [|done]. apply lookup_insert_Some. right.
    split; [|done]. apply T1 in Hid. lia.
  - intros id tm [= <-] H. rewrite lookup_insert_eq in H. by simplify_eq.
  - intros id tm Hsto H. pending_cases; [|eauto].
    specialize (T2 _ (or_intror Hsto)). lia.
Qed.

Lemma timers_ok_restart s : timers_ok s -> timers_ok (restart_st s).
Proof.
  intros Hok. apply timers_ok_start.
  - by apply timers_ok_reset.
  - by apply reset_heart_idle.
Qed.

Lemma timers_ok_reconnect s : timers_ok s -> timers_ok (reconnect_st s).
Proof.
  intros Hok. unfold reconnect_st, schedules.
  destruct (retry_cap <? S (retry s))%nat, (lockReconnect s) eqn:Hlock;
    try by apply (timers_ok_ext s).
  cbn [orb negb].
  destruct Hok as [T1 T2 T3 T4 T5 T6 T7 T8 T9 T10].
  assert (forall id tm, timers s !! id = Some tm -> t_act tm <> ReconnectTimer) as Hno.
  { intros id tm H Hact. destruct (T3 _ _ H Hact). congruence. }
  split; cbn.
  - intros id tm H. pending_cases; [lia|]. apply T1 in H. lia.
  - intros id H. apply T2 in H. lia.
  - intros id tm H Hact. pending_cases; [done|]. by apply Hno in H.
  - intros id id' tm tm' H H' Hact Hact'. pending_cases; try done;
      exfalso; eapply Hno; eassumption.
  - intros id tm H Hact. pending_cases; [done|]. eauto.
  - intros id tm H Hact. pending_cases; [done|]. eauto.
  - intros id id' tm tm' H H' Hact Hact'. pending_cases; try done. eauto.
  - intros _. eexists _, _. split; [apply lookup_insert_eq|done].
  - intros id tm Hto H. pending_cases; [|eauto].
    specialize (T2 _ (or_introl Hto)). lia.
  - intros id tm Hsto H. pending_cases; [|eauto].
    specialize (T2 _ (or_intror Hsto)). lia.
Qed.

Lemma connect_st_locked s :
  lockReconnect s = true ->
  timers (connect_st s) = timers s /\
  next_timer (connect_st s) = next_timer s /\
  lockReconnect (connect_st s) = true /\
  timeoutObj (connect_st s) = timeoutObj s /\
  serverTimeoutObj (connect_st s) = serverTimeoutObj s.
Proof.
  intros Hlock. unfold connect_st, reconnect_st, schedules. rewrite Hlock.
  destruct (connect_fails s); [done|].
  destruct (has_WebSocket cfg); done.
Qed.

Lemma timers_ok_connect s : timers_ok s -> timers_ok (connect_st s).
Proof.
  intros Hok. unfold connect_st.
  destruct (connect_fails s); [by apply timers_ok_reconnect|].
  destruct (has_WebSocket cfg); by apply (timers_ok_ext s).
Qed.

Lemma timers_ok_fire_reconnect s id tm :
  timers_ok s -> timers s !! id = Some tm -> t_act tm = ReconnectTimer ->
  timers_ok (set_lockReconnect false (connect_st (cancel (Some id) s))).
Proof.
  intros Hok Hid Hact.
  assert (lockReconnect (cancel (Some id) s) = true) as Hlock.
  { cbn. by destruct (tok_lock _ Hok _ _ Hid Hact). }
  destruct (connect_st_locked _ Hlock) as (E1 & E2 & E3 & E4 & E5).
  destruct Hok as [T1 T2 T3 T4 T5 T6 T7 T8 T9 T10].
  assert (forall i t, timers (cancel (Some id) s) !! i = Some t ->
                      t_act t <> ReconnectTimer) as Hno.
  { cbn. intros i t H Hact'. pending_cases.
    by pose proof (T4 _ _ _ _ Hid H Hact Hact'). }
  cbn in E1, E2, E4, E5, Hno.
  split; cbn; rewrite ?E1, ?E2, ?E4, ?E5; try done.
  - intros i t H. pending_cases. eauto.
  - intros i t H Hact'. by apply Hno in H.
  - intros i i' t t' H H' Hact1 Hact2. by apply Hno in H.
  - intros i t H Hact'. pending_cases. eauto.
  - intros i t H Hact'. pending_cases. eauto.
  - intros i i' t t' H H' Hact1 Hact2. pending_cases. eauto.
  - intros i t Hto H. pending_cases. eauto.
  - intros i t Hto H. pending_cases. eauto.
Qed.

Lemma timers_ok_arm_force s :
  timers_ok s -> heart_idle s ->
  timers_ok (set_serverTimeoutObj (Some (next_timer s))
               (arm ForceCloseTimer (heartCheckTime cfg) s)).
Proof.
  intros [T1 T2 T3 T4 T5 T6 T7 T8 T9 T10] Hidle.
  split; cbn.
  - intros i t H. pending_cases; [lia|]. apply T1 in H. lia.
  - intros i [H|H]; [|simplify_eq; lia]. specialize (T2 i (or_introl H)). lia.
  - intros i t H Hact'. pending_cases; [done|]. eauto.
  - intros i i' t t' H H' Hact1 Hact2. pending_cases; try done. eauto.
  - intros i t H Hact'. pending_cases; [done|].
    apply Hidle in H. congruence.
  - intros i t H Hact'. pending_cases; [done|].
    apply Hidle in H. congruence.
  - intros i i' t t' H H' Hact1 Hact2. pending_cases; try done.
    + apply Hidle in H. congruence.
    + apply Hidle in H. congruence.
  - intros Hlock. destruct (T8 Hlock) as (id & tm & Hid & Hact).
    exists id, tm. split; [|done]. apply lookup_insert_Some. right.
    split; [|done]. apply T1 in Hid. lia.
  - intros i t Hto H. pending_cases; [|eauto].
    specialize (T2 _ (or_introl Hto)). lia.
  - intros i t [= <-] H. rewrite lookup_insert_eq in H. by simplify_eq.
Qed.

Lemma timers_ok_fire_probe s id tm :
  timers_ok s -> timers s !! id = Some tm -> t_act tm = ProbeTimer ->
  timers_ok (set_serverTimeoutObj (Some (next_timer s))
               (arm ForceCloseTimer (heartCheckTime cfg) (cancel (Some id) s))).
Proof.
  intros Hok Hid Hact.
  apply (timers_ok_arm_force (cancel (Some id) s)).
  - apply timers_ok_cancel; [done|]. intros ? ? [= <-] ?. simplify_eq. congruence.
  - unfold heart_idle. cbn. intros i t H. pending_cases.
    destruct (t_act t) eqn:Hact'; [done| |].
    + destruct (tok_probe _ Hok _ _ H Hact'), (tok_probe _ Hok _ _ Hid Hact).
      congruence.
    + destruct (tok_excl _ Hok _ _ _ _ Hid H Hact Hact').
Qed.

Lemma timers_ok_not_connecting t s :
  timers_ok s -> timers_ok (not_connecting t s).
Proof. by apply (timers_ok_ext s). Qed.

Lemma step_timers_ok s ev : timers_ok s -> timers_ok (step cfg env s ev).1.
Proof.
  intros Hok. destruct ev as [t|t raw|t|t|id|p v|p| |name func|c v].
  - destruct (decide (t ∈ sockets s)) as [Ht|Ht].
    + rewrite step_open by done.
      by apply timers_ok_not_connecting, timers_ok_restart.
    + rewrite (step_foreign _ t) by eauto. done.
  - destruct (decide (t ∈ sockets s)) as [Ht|Ht].
    + rewrite step_message by done. cbn [fst].
      apply timers_ok_not_connecting. unfold msg_st.
      pose proof (timers_ok_restart s Hok).
      destruct (dispatch _ _) as [|e|h arg data|h data]; try done;
        by apply (timers_ok_ext (restart_st s)).
    + rewrite (step_foreign _ t) by eauto 6. done.
  - destruct (decide (t ∈ sockets s)) as [Ht|Ht].
    + rewrite step_error by done.
      by apply timers_ok_not_connecting, timers_ok_reconnect.
    + rewrite (step_foreign _ t) by eauto 6. done.
  - destruct (decide (t ∈ sockets s)) as [Ht|Ht].
    + rewrite step_close by done.
      by apply timers_ok_not_connecting, timers_ok_reconnect.
    + rewrite (step_foreign _ t) by eauto 6. done.
  - destruct (timers s !! id) as [tm|] eqn:Hid.
    + rewrite (step_timer _ _ tm) by done.
      assert (t_act tm <> ReconnectTimer -> timers_ok (cancel (Some id) s)) as Hc.
      { intros Hact. apply timers_ok_cancel; [done|].
        intros ? ? [= <-] ?. simplify_eq. congruence. }
      destruct (t_act tm) eqn:Hact.
      * by eapply timers_ok_fire_reconnect.
      * destruct (ws s) as [w|]; [|by apply Hc].
        destruct (decide (w ∈ connecting s)); [by apply Hc|].
        by eapply timers_ok_fire_probe.
      * destruct (ws s) as [w|]; [|by apply Hc].
        by apply timers_ok_not_connecting, Hc.
    + unfold step. by rewrite Hid.
  - destruct (promises s !! p) as [data|] eqn:Hp.
    + rewrite (step_resolve _ _ data) by done. by apply (timers_ok_ext s).
    + unfold step. by rewrite Hp.
  - destruct (promises s !! p) as [data|] eqn:Hp.
    + rewrite (step_reject _ _ data) by done. by apply (timers_ok_ext s).
    + unfold step. by rewrite Hp.
  - rewrite step_callClose. destruct (ws s); by apply (timers_ok_ext s).
  - rewrite step_addFunc. by apply (timers_ok_ext s).
  - destruct (callbacks s !! c) as [data|] eqn:Hc.
    + by rewrite (step_callback _ _ data).
    + unfold step. by rewrite Hc.
Qed.

(** ** Executions *)

Lemma run_cons s ev tr :
  run cfg env s (ev :: tr)
  = ((run cfg env (step cfg env s ev).1 tr).1,
     (step cfg env s ev).2 ++ (run cfg env (step cfg env s ev).1 tr).2).
Proof.
  cbn [run]. destruct (step cfg env s ev) as [s1 o1].
  cbn [fst snd]. by destruct (run cfg env s1 tr).
Qed.

Lemma run_app s tr1 tr2 :
  run cfg env s (tr1 ++ tr2)
  = ((run cfg env (run cfg env s tr1).1 tr2).1,
     (run cfg env s tr1).2 ++ (run cfg env (run cfg env s tr1).1 tr2).2).
Proof.
  revert s. induction tr1 as [|ev tr1 IH]; intros s.
  - cbn. by destruct (run cfg env s tr2).
  - rewrite <- app_comm_cons, !run_cons, IH. cbn [fst snd].
    by rewrite app_assoc.
Qed.

Lemma run_invariant (P : State -> Prop) :
  (forall s ev, P s -> P (step cfg env s ev).1) ->
  forall tr s, P s -> P (run cfg env s tr).1.
Proof.
  intros Hstep tr. induction tr as [|ev tr IH]; intros s Hs; [done|].
  rewrite run_cons. cbn [fst]. by apply IH, Hstep.
Qed.

Lemma reachable_step s ev : reachable s -> reachable (step cfg env s ev).1.
Proof.
  intros (fm & tr & ->). exists fm, (tr ++ [ev]).
  rewrite run_app. cbn [fst]. rewrite run_cons. done.
Qed.

Lemma reachable_run s tr : reachable s -> reachable (run cfg env s tr).1.
Proof. apply run_invariant. intros; by apply reachable_step. Qed.

Lemma WebSocketManager_eq fm :
  WebSocketManager cfg fm = (connect_st (blank fm), connect_out (blank fm)).
Proof. unfold WebSocketManager, task. by rewrite createWebSocket_eq. Qed.

Lemma blank_timers_ok fm : timers_ok (blank fm).
Proof. split; cbn; intros *; rewrite ?lookup_empty; try done. by intros [?|?]. Qed.

Lemma run_timers_ok s tr : timers_ok s -> timers_ok (run cfg env s tr).1.
Proof. apply run_invariant. intros; by apply step_timers_ok. Qed.

Lemma init_timers_ok fm : timers_ok (WebSocketManager cfg fm).1.
Proof.
  rewrite WebSocketManager_eq. apply timers_ok_connect, blank_timers_ok.
Qed.

Lemma reachable_timers_ok s : reachable s -> timers_ok s.
Proof. intros (fm & tr & ->). apply run_timers_ok, init_timers_ok. Qed.

(** *** Promises *)

Lemma step_promises_ok s ev : promises_ok s -> promises_ok (step cfg env s ev).1.
Proof.
  intros Hok. destruct ev as [t|t raw|t|t|id|p v|p| |name func|c v].
  - destruct (decide (t ∈ sockets s)) as [Ht|Ht].
    + rewrite step_open by done. done.
    + rewrite (step_foreign _ t) by eauto. done.
  - destruct (decide (t ∈ sockets s)) as [Ht|Ht].
    + rewrite step_message by done. cbn. unfold msg_st.
      destruct (dispatch _ _) as [|e|h arg data|h data]; try done.
      * intros p d. cbn. intros H.
        apply lookup_insert_Some in H as [[<- _]|[_ H]]; [lia|].
        apply Hok in H. lia.
      * intros p d. cbn. intros H. apply Hok in H. lia.
    + rewrite (step_foreign _ t) by eauto 6. done.
  - destruct (decide (t ∈ sockets s)) as [Ht|Ht].
    + rewrite step_error by done. cbn. unfold reconnect_st.
      by destruct (schedules s).
    + rewrite (step_foreign _ t) by eauto 6. done.
  - destruct (decide (t ∈ sockets s)) as [Ht|Ht].
    + rewrite step_close by done. cbn. unfold reconnect_st.
      by destruct (schedules s).
    + rewrite (step_foreign _ t) by eauto 6. done.
  - destruct (timers s !! id) as [tm|] eqn:Hid.
    + rewrite (step_timer _ _ tm) by done.
      destruct (t_act tm);
        [|destruct (ws s) as [w|]; [by destruct (decide (w ∈ connecting s))|done]
         |by destruct (ws s)].
      cbn. unfold connect_st, reconnect_st.
      destruct (connect_fails _); [by destruct (schedules _)|].
      by destruct (has_WebSocket cfg).
    + unfold step. by rewrite Hid.
  - destruct (promises s !! p) as [data|] eqn:Hp.
    + rewrite (step_resolve _ _ data) by done. intros q d. cbn.
      intros H. apply lookup_delete_Some in H as [_ H]. by apply Hok in H.
    + unfold step. by rewrite Hp.
  - destruct (promises s !! p) as [data|] eqn:Hp.
    + rewrite (step_reject _ _ data) by done. intros q d. cbn.
      intros H. apply lookup_delete_Some in H as [_ H]. by apply Hok in H.
    + unfold step. by rewrite Hp.
  - rewrite step_callClose. by destruct (ws s).
  - by rewrite step_addFunc.
  - destruct (callbacks s !! c) as [data|] eqn:Hc.
    + by rewrite (step_callback _ _ data).
    + unfold step. by rewrite Hc.
Qed.

Lemma reachable_promises_ok s : reachable s -> promises_ok s.
Proof.
  intros (fm & tr & ->). apply run_invariant; [apply step_promises_ok|].
  rewrite WebSocketManager_eq. cbn. unfold connect_st, reconnect_st.
  destruct (connect_fails _); [destruct (schedules _)|destruct (has_WebSocket cfg)];
    intros p d; cbn; intros H; simplify_map_eq.
Qed.

(** *** Counting attempts and reconnect requests *)

Lemma attempts_app o1 o2 : attempts (o1 ++ o2) = attempts o1 + attempts o2.
Proof. unfold attempts. by rewrite List.filter_app, length_app. Qed.

Lemma requests_app o1 o2 : requests (o1 ++ o2) = requests o1 + requests o2.
Proof. unfold requests. by rewrite List.filter_app, length_app. Qed.

Lemma reconnect_out_attempts s : attempts (reconnect_out s) = 0.
Proof. unfold reconnect_out. by destruct (schedules s). Qed.

Lemma reconnect_out_requests s :
  requests (reconnect_out s) = if schedules s then 1 else 0.
Proof. unfold reconnect_out. by destruct (schedules s). Qed.

Lemma connect_out_attempts s : attempts (connect_out s) <= 1.
Proof.
  unfold connect_out. destruct (connect_fails s).
  - rewrite attempts_app, reconnect_out_attempts. cbn. lia.
  - destruct (has_WebSocket cfg); cbn; lia.
Qed.

Lemma connect_out_requests s :
  lockReconnect s = true -> requests (connect_out s) = 0.
Proof.
  intros Hlock. unfold connect_out.
  destruct (connect_fails s).
  - rewrite requests_app, reconnect_out_requests. unfold schedules.
    by rewrite Hlock.
  - by destruct (has_WebSocket cfg).
Qed.



Lemma failure_signal_step s ev :
  failure_signal s ev ->
  exists t,
    (step cfg env s ev).1 = not_connecting t (reconnect_st s) /\
    attempts (step cfg env s ev).2 = 0 /\
    requests (step cfg env s ev).2 = (if schedules s then 1 else 0).
Proof.
  intros (t & Ht & [-> | ->]); exists t.
  - rewrite step_error by done. cbn [fst snd].
    change (Console LogError :: reconnect_out s)
      with ([Console LogError] ++ reconnect_out s).
    by rewrite attempts_app, requests_app, reconnect_out_attempts,
      reconnect_out_requests.
  - rewrite step_close by done. cbn [fst snd].
    rewrite attempts_app, requests_app, reconnect_out_attempts,
      reconnect_out_requests. cbn. split; [done|]. split; lia.
Qed.

Lemma reconnect_st_fields s :
  retry (reconnect_st s) = S (retry s) /\
  lockReconnect (reconnect_st s) = (lockReconnect s || schedules s).
Proof.
  unfold reconnect_st. destruct (schedules s) eqn:E; cbn.
  - split; [done|]. by rewrite orb_true_r.
  - by rewrite orb_false_r.
Qed.






(** *** The exhausted state is final *)





(** *** What is sent, and when *)

Lemma reconnect_out_sends s w payload : ~ In (WsSend w payload) (reconnect_out s).
Proof. unfold reconnect_out. destruct (schedules s); cbn; intuition congruence. Qed.

Lemma connect_out_sends s w payload : ~ In (WsSend w payload) (connect_out s).
Proof.
  unfold connect_out. destruct (connect_fails s).
  - rewrite in_app_iff. intros [H|H]; [by apply reconnect_out_sends in H|].
    cbn in H. intuition congruence.
  - destruct (has_WebSocket cfg); cbn; intuition congruence.
Qed.

Lemma send_out_sends s payload more escapes w sent :
  (forall e, escapes e <> WsSend w sent) ->
  In (WsSend w sent) (send_out s payload more escapes) ->
  (sent = payload /\ ws s = Some w /\ (w ∉ connecting s)) \/
  In (WsSend w sent) more.
Proof.
  intros Hesc.
  destruct (send_out_cases s payload more escapes)
    as [[-> _]|[(w' & _ & _ & ->)|(w' & Hw & Hc & ->)]]; cbn.
  - intros [H|[]]. by destruct (Hesc TypeError).
  - intros [H|[]]. by destruct (Hesc InvalidStateError).
  - intros [[= <- <-]|H]; [by left|by right].
Qed.

(** Every frame the manager sends is the introduction (on open), the probe
    (on a timer) or the answer of the then-callback, run for the promise
    that just resolved or called by the function it was handed to; and it is
    sent on the transport held at that moment, which is not CONNECTING. *)
Lemma sends_classified s ev w payload :
  In (WsSend w payload) (step cfg env s ev).2 ->
  ws s = Some w /\
  ((exists t, ev = EvOpen t /\ payload = intro_frame (agentName cfg) /\
      (w ∈ connecting s -> w = t)) \/
   (exists id, ev = EvTimer id /\ payload = "ping" /\ (w ∉ connecting s)) \/
   (exists q v d, ev = EvResolve q v /\ promises s !! q = Some d /\
      payload = JSON_stringify env (answerResp (agentName cfg) d v) /\
      (w ∉ connecting s)) \/
   (exists c v d, ev = EvCallback c v /\ callbacks s !! c = Some d /\
      payload = JSON_stringify env (answerResp (agentName cfg) d v) /\
      (w ∉ connecting s))).
Proof.
  destruct ev as [t|t raw|t|t|id|p v|p| |name func|c v].
  - destruct (decide (t ∈ sockets s)) as [Ht|Ht].
    + rewrite step_open by done. cbn [snd]. intros [H|H]; [done|].
      apply send_out_sends in H as [(-> & Hw & Hc)|H]; [| |done].
      * cbn in Hw, Hc. split; [done|]. left. exists t.
        split; [done|]. split; [done|]. intros Hin.
        destruct (decide (w = t)); [done|]. destruct Hc. set_solver.
      * cbn in H. intuition congruence.
    + rewrite (step_foreign _ t) by eauto. done.
  - destruct (decide (t ∈ sockets s)) as [Ht|Ht].
    + rewrite step_message by done. cbn [snd]. unfold msg_out. intros H.
      destruct (dispatch _ _) as [|e|h arg data|h data];
        cbn in H; intuition congruence.
    + rewrite (step_foreign _ t) by eauto 6. done.
  - destruct (decide (t ∈ sockets s)) as [Ht|Ht].
    + rewrite step_error by done. cbn. intros [H|H]; [done|].
      by apply reconnect_out_sends in H.
    + rewrite (step_foreign _ t) by eauto 6. done.
  - destruct (decide (t ∈ sockets s)) as [Ht|Ht].
    + rewrite step_close by done. cbn [snd]. rewrite in_app_iff.
      intros [H|H]; [by apply reconnect_out_sends in H|].
      cbn in H. intuition congruence.
    + rewrite (step_foreign _ t) by eauto 6. done.
  - destruct (timers s !! id) as [tm|] eqn:Hid.
    + rewrite (step_timer _ _ tm) by done. intros H.
      destruct (t_act tm).
      * by apply connect_out_sends in H.
      * destruct (ws s) as [w'|]; [|cbn in H; intuition congruence].
        destruct (decide (w' ∈ connecting s)); cbn in H; [intuition congruence|].
        destruct H as [[= <- <-]|[H|[]]]; [|done].
        split; [done|]. right; left. by exists id.
      * destruct (ws s); cbn in H; intuition congruence.
    + unfold step. by rewrite Hid.
  - destruct (promises s !! p) as [data|] eqn:Hp.
    + rewrite (step_resolve _ _ data) by done. cbn [snd]. intros H.
      apply send_out_sends in H as [(-> & Hw & Hc)|[]]; [|done].
      split; [done|]. right; right; left. by exists p, v, data.
    + unfold step. by rewrite Hp.
  - destruct (promises s !! p) as [data|] eqn:Hp.
    + rewrite (step_reject _ _ data) by done. cbn. intuition congruence.
    + unfold step. by rewrite Hp.
  - rewrite step_callClose. destruct (ws s); cbn; intuition congruence.
  - by rewrite step_addFunc.
  - destruct (callbacks s !! c) as [data|] eqn:Hc.
    + rewrite (step_callback _ _ data) by done. cbn [snd]. intros H.
      apply send_out_sends in H as [(-> & Hw & Hc')|[]]; [|done].
      split; [done|]. right; right; right. by exists c, v, data.
    + unfold step. by rewrite Hc.
Qed.

(** A pending promise stays pending, with the frame it closed over, until
    it settles. *)
Lemma step_promise_kept s ev p d :
  promises_ok s -> promises s !! p = Some d -> ~ settles p ev ->
  promises (step cfg env s ev).1 !! p = Some d.
Proof.
  intros Hok Hp Hns. destruct ev as [t|t raw|t|t|id|q v|q| |name func|c v].
  - destruct (decide (t ∈ sockets s)) as [Ht|Ht].
    + by rewrite step_open.
    + by rewrite (step_foreign _ t) by eauto.
  - destruct (decide (t ∈ sockets s)) as [Ht|Ht].
    + rewrite step_message by done. cbn [fst]. unfold msg_st.
      destruct (dispatch _ _) as [|e|h arg data|h data]; try done. cbn.
      rewrite lookup_insert_ne; [done|]. apply Hok in Hp. lia.
    + by rewrite (step_foreign _ t) by eauto 6.
  - destruct (decide (t ∈ sockets s)) as [Ht|Ht].
    + rewrite step_error by done. cbn. unfold reconnect_st.
      by destruct (schedules s).
    + by rewrite (step_foreign _ t) by eauto 6.
  - destruct (decide (t ∈ sockets s)) as [Ht|Ht].
    + rewrite step_close by done. cbn. unfold reconnect_st.
      by destruct (schedules s).
    + by rewrite (step_foreign _ t) by eauto 6.
  - destruct (timers s !! id) as [tm|] eqn:Hid.
    + rewrite (step_timer _ _ tm) by done.
      destruct (t_act tm);
        [|destruct (ws s) as [w|]; [by destruct (decide (w ∈ connecting s))|done]
         |by destruct (ws s)].
      cbn. unfold connect_st, reconnect_st.
      destruct (connect_fails _); [by destruct (schedules _)|].
      by destruct (has_WebSocket cfg).
    + unfold step. by rewrite Hid.
  - destruct (decide (q = p)) as [->|Hne].
    { destruct Hns. right. by exists v. }
    destruct (promises s !! q) as [data|] eqn:Hq.
    + rewrite (step_resolve _ _ data) by done. cbn. by rewrite lookup_delete_ne.
    + unfold step. by rewrite Hq.
  - destruct (decide (q = p)) as [->|Hne].
    { destruct Hns. by left. }
    destruct (promises s !! q) as [data|] eqn:Hq.
    + rewrite (step_reject _ _ data) by done. cbn. by rewrite lookup_delete_ne.
    + unfold step. by rewrite Hq.
  - rewrite step_callClose. by destruct (ws s).
  - by rewrite step_addFunc.
  - destruct (callbacks s !! c) as [data|] eqn:Hc.
    + by rewrite (step_callback _ _ data).
    + unfold step. by rewrite Hc.
Qed.

Lemma run_promise_kept tr : forall s p d,
  promises_ok s -> promises s !! p = Some d ->
  Forall (fun ev => ~ settles p ev) tr ->
  promises (run cfg env s tr).1 !! p = Some d.
Proof.
  induction tr as [|ev tr IH]; intros s p d Hok Hp Hall; [done|].
  apply Forall_cons in Hall as [Hev Hall].
  rewrite run_cons. cbn [fst].
  apply IH; [by apply step_promises_ok|by apply step_promise_kept|done].
Qed.

(** A settled promise is never pending again. *)
Lemma step_settled s ev p : settled p s -> settled p (step cfg env s ev).1.
Proof.
  intros [Hlt Hp]. destruct ev as [t|t raw|t|t|id|q v|q| |name func|c v].
  - destruct (decide (t ∈ sockets s)) as [Ht|Ht].
    + by rewrite step_open.
    + by rewrite (step_foreign _ t) by eauto.
  - destruct (decide (t ∈ sockets s)) as [Ht|Ht].
    + rewrite step_message by done. cbn [fst]. unfold msg_st.
      destruct (dispatch _ _) as [|e|h arg data|h data]; try done.
      * split; cbn; [lia|]. rewrite lookup_insert_ne; [done|lia].
      * split; cbn; [lia|done].
    + by rewrite (step_foreign _ t) by eauto 6.
  - destruct (decide (t ∈ sockets s)) as [Ht|Ht].
    + rewrite step_error by done. cbn. unfold reconnect_st.
      by destruct (schedules s).
    + by rewrite (step_foreign _ t) by eauto 6.
  - destruct (decide (t ∈ sockets s)) as [Ht|Ht].
    + rewrite step_close by done. cbn. unfold reconnect_st.
      by destruct (schedules s).
    + by rewrite (step_foreign _ t) by eauto 6.
  - destruct (timers s !! id) as [tm|] eqn:Hid.
    + rewrite (step_timer _ _ tm) by done.
      destruct (t_act tm);
        [|destruct (ws s) as [w|]; [by destruct (decide (w ∈ connecting s))|done]
         |by destruct (ws s)].
      cbn. unfold connect_st, reconnect_st.
      destruct (connect_fails _); [by destruct (schedules _)|].
      by destruct (has_WebSocket cfg).
    + unfold step. by rewrite Hid.
  - destruct (promises s !! q) as [data|] eqn:Hq.
    + rewrite (step_resolve _ _ data) by done. split; cbn; [done|].
      apply lookup_delete_None. by right.
    + unfold step. by rewrite Hq.
  - destruct (promises s !! q) as [data|] eqn:Hq.
    + rewrite (step_reject _ _ data) by done. split; cbn; [done|].
      apply lookup_delete_None. by right.
    + unfold step. by rewrite Hq.
  - rewrite step_callClose. by destruct (ws s).
  - by rewrite step_addFunc.
  - destruct (callbacks s !! c) as [data|] eqn:Hc.
    + by rewrite (step_callback _ _ data).
    + unfold step. by rewrite Hc.
Qed.

Lemma run_settled tr s p : settled p s -> settled p (run cfg env s tr).1.
Proof. revert s. apply run_invariant. intros; by apply step_settled. Qed.

(** *** The flag set by close()

    No task reads [isClosed]: whatever it holds, every task does the same
    to the outside. *)
Lemma isClosed_unread s ev b :
  (step cfg env (set_isClosed b s) ev).2 = (step cfg env s ev).2.
Proof.
  destruct ev as [t|t raw|t|t|id|p v|p| |name func|c v].
  - destruct (decide (t ∈ sockets s)) as [Ht|Ht].
    + by rewrite !step_open.
    + by rewrite !(step_foreign _ t) by eauto.
  - destruct (decide (t ∈ sockets s)) as [Ht|Ht].
    + by rewrite !step_message.
    + by rewrite !(step_foreign _ t) by eauto 6.
  - destruct (decide (t ∈ sockets s)) as [Ht|Ht].
    + by rewrite !step_error.
    + by rewrite !(step_foreign _ t) by eauto 6.
  - destruct (decide (t ∈ sockets s)) as [Ht|Ht].
    + by rewrite !step_close.
    + by rewrite !(step_foreign _ t) by eauto 6.
  - destruct (timers s !! id) as [tm|] eqn:Hid.
    + rewrite (step_timer (set_isClosed b s) id tm), (step_timer s id tm) by done.
      destruct (t_act tm); cbn;
        [|destruct (ws s) as [w|]; [by destruct (decide (w ∈ connecting s))|done]
         |by destruct (ws s)].
      unfold connect_out, connect_fails, reconnect_out, schedules. done.
    + unfold step. cbn. by rewrite Hid.
  - destruct (promises s !! p) as [data|] eqn:Hp.
    + by rewrite !(step_resolve _ _ data).
    + unfold step. cbn. by rewrite Hp.
  - destruct (promises s !! p) as [data|] eqn:Hp.
    + by rewrite !(step_reject _ _ data).
    + unfold step. cbn. by rewrite Hp.
  - rewrite !step_callClose. cbn. by destruct (ws s).
  - by rewrite !step_addFunc.
  - destruct (callbacks s !! c) as [data|] eqn:Hc.
    + by rewrite !(step_callback _ _ data).
    + unfold step. cbn. by rewrite Hc.
Qed.

(** * Properties of the manager *)

Lemma step_retry s ev :
  retry (step cfg env s ev).1 = retry s + signals s ev.
Proof.
  destruct ev as [t|t raw|t|t|id|p v|p| |name func|c v]; cbn [signals].
  - destruct (decide (t ∈ sockets s)) as [Ht|Ht].
    + rewrite step_open by done. cbn. lia.
    + rewrite (step_foreign _ t) by eauto. cbn. lia.
  - destruct (decide (t ∈ sockets s)) as [Ht|Ht].
    + rewrite step_message by done. cbn [fst]. unfold msg_st.
      destruct (dispatch _ _) as [|e|h arg data|h data]; cbn; lia.
    + rewrite (step_foreign _ t) by eauto 6. cbn. lia.
  - destruct (decide (t ∈ sockets s)) as [Ht|Ht].
    + rewrite step_error by done. cbn [fst retry not_connecting set_connecting].
      destruct (reconnect_st_fields s) as [-> _]. lia.
    + rewrite (step_foreign _ t) by eauto 6. cbn. lia.
  - destruct (decide (t ∈ sockets s)) as [Ht|Ht].
    + rewrite step_close by done. cbn [fst retry not_connecting set_connecting].
      destruct (reconnect_st_fields s) as [-> _]. lia.
    + rewrite (step_foreign _ t) by eauto 6. cbn. lia.
  - destruct (timers s !! id) as [tm|] eqn:Hid.
    + rewrite (step_timer _ _ tm) by done.
      destruct (t_act tm);
        [|destruct (ws s) as [w|];
            [destruct (decide (w ∈ connecting s))|]; cbn; lia
         |destruct (ws s); cbn; lia].
      cbn [fst retry set_lockReconnect]. unfold connect_st.
      destruct (connect_fails _).
      * destruct (reconnect_st_fields (cancel (Some id) s)) as [-> _]. cbn. lia.
      * destruct (has_WebSocket cfg); cbn; lia.
    + unfold step. rewrite Hid. cbn. lia.
  - destruct (promises s !! p) as [data|] eqn:Hp.
    + rewrite (step_resolve _ _ data) by done. cbn. lia.
    + unfold step. rewrite Hp. cbn. lia.
  - destruct (promises s !! p) as [data|] eqn:Hp.
    + rewrite (step_reject _ _ data) by done. cbn. lia.
    + unfold step. rewrite Hp. cbn. lia.
  - rewrite step_callClose. destruct (ws s); cbn; lia.
  - rewrite step_addFunc. cbn. lia.
  - destruct (callbacks s !! c) as [data|] eqn:Hc.
    + rewrite (step_callback _ _ data) by done. cbn. lia.
    + unfold step. rewrite Hc. cbn. lia.
Qed.

(** C2, as the code has it: the retry counter is never reset.  A transition
    to Open leaves it unchanged; a task adds to it exactly the failure
    signals it feeds to reconnect (one for an error or close callback, one
    for a connection attempt that throws inside the reconnect timer); so it
    never decreases in any execution, and the budget of ten is spent over
    the life of the manager. *)
Theorem retry_never_reset s ev t tr :
  retry (step cfg env s (EvOpen t)).1 = retry s /\
  retry (step cfg env s ev).1 = retry s + signals s ev /\
  retry s <= retry (run cfg env s tr).1.
Proof.
  split; [|split].
  - rewrite step_retry. cbn. lia.
  - apply step_retry.
  - revert s. induction tr as [|e tr IH]; intros s; [done|].
    rewrite run_cons. cbn [fst].
    specialize (IH (step cfg env s e).1). rewrite step_retry in IH. lia.
Qed.



(** C5, as the code has it: a frame that parses to a tools envelope whose
    func_name is registered invokes that handler once with the params of
    the request and sends nothing yet; the reaction stays pending, whatever
    else happens, until the promise settles.  When it resolves while the
    manager holds a transport that is no longer CONNECTING, send is called
    once, on the transport held at that moment, with JSON.stringify of the
    object with the echoed id, msg_type tools_result, the agent name and the
    result; when it resolves while the manager holds no transport or one
    that is still CONNECTING, send throws inside the callback, nothing is
    sent and the rejection is unhandled.  A task that is not a run of the
    then-callback sends nothing but the introduction or the probe. *)
Theorem tool_request_answered s t raw data name h tr v :
  reachable s -> t ∈ sockets s ->
  raw <> "pong" ->
  JSON_parse env raw = Some data -> nullish data = false ->
  prop data "msg_type" = JStr "tools" ->
  prop data "func_name" = JStr name ->
  funcMap s !! name = Some h ->
  let p := next_promise s in
  let s1 := (step cfg env s (EvMessage t raw)).1 in
  let s2 := (run cfg env s1 tr).1 in
  Forall (fun ev => ~ settles p ev) tr ->
  (step cfg env s (EvMessage t raw)).2
  = [SetTimeout (next_timer s) (heartCheckTime cfg) ProbeTimer;
     Console (LogRecv raw);
     Invoke h (prop data "params") p] /\
  promises s2 !! p = Some data /\
  step cfg env s2 (EvResolve p v)
  = (settle p s2,
     match ws s2 with
     | Some w =>
         if decide (w ∈ connecting s2) then [UnhandledRejection p]
         else
           [WsSend w (JSON_stringify env
              (JObj [("id", prop data "id");
                     ("msg_type", JStr "tools_result");
                     ("agent", JStr (agentName cfg));
                     ("func_result", v)]))]
     | None => [UnhandledRejection p]
     end) /\
  (forall s' ev w' payload,
     In (WsSend w' payload) (step cfg env s' ev).2 ->
     (forall q u, ev <> EvResolve q u) ->
     (forall c u, ev <> EvCallback c u) ->
     payload = intro_frame (agentName cfg) \/ payload = "ping").
Proof.
  intros Hr Ht Hraw Hparse Hnull Hmt Hfn Hh p s1 s2 Hall.
  assert (dispatch (funcMap s) raw = Calls h (prop data "params") data) as Hd.
  { unfold dispatch, lookup_entry. apply String.eqb_neq in Hraw.
    rewrite Hraw, Hparse, Hnull, Hmt, Hfn. cbn. by rewrite Hh. }
  assert (promises s2 !! p = Some data) as Hp2.
  { apply run_promise_kept; [| |done].
    - apply step_promises_ok. by apply reachable_promises_ok.
    - unfold s1. rewrite step_message by done. cbn [fst]. unfold msg_st.
      rewrite Hd. cbn. apply lookup_insert_eq. }
  split; [|split; [done|split]].
  - rewrite step_message by done. cbn [snd]. unfold msg_out. by rewrite Hd.
  - by rewrite (step_resolve _ _ data).
  - intros s' ev w' payload Hin Hev Hev'.
    destruct (sends_classified _ _ _ _ Hin)
      as [_ [(t' & -> & -> & _)|[(id & -> & -> & _)|
            [(q & u & d & -> & _)|(c & u & d & -> & _)]]]]; eauto.
    + by destruct (Hev q u).
    + by destruct (Hev' c u).
Qed.

(** C6, as the code has it: at most one reconnect timer is pending at any
    time, and the lock is held exactly while one is.  A failure signal that
    finds the lock free and the counter below the cap requests exactly one
    reconnection, 2000 ms later; one that finds the lock held or the cap
    reached requests none and leaves the timers alone.  Either way the
    signal is counted. *)
Theorem reconnect_single_pending s t ev :
  reachable s -> t ∈ sockets s -> ev = EvError t \/ ev = EvClose t ->
  (forall id id' tm tm',
     timers s !! id = Some tm -> timers s !! id' = Some tm' ->
     t_act tm = ReconnectTimer -> t_act tm' = ReconnectTimer -> id = id') /\
  (lockReconnect s = true <->
   exists id tm, timers s !! id = Some tm /\ t_act tm = ReconnectTimer) /\
  (lockReconnect s = false -> retry s < retry_cap ->
   requests (step cfg env s ev).2 = 1 /\
   In (SetTimeout (next_timer s) reconnect_delay ReconnectTimer)
      (step cfg env s ev).2 /\
   timers (step cfg env s ev).1
   = <[next_timer s := {| t_delay := reconnect_delay; t_act := ReconnectTimer |}]>
       (timers s)) /\
  (lockReconnect s = true \/ retry_cap <= retry s ->
   requests (step cfg env s ev).2 = 0 /\
   timers (step cfg env s ev).1 = timers s) /\
  retry (step cfg env s ev).1 = S (retry s).
Proof.
  intros Hr Ht Hev. apply reachable_timers_ok in Hr.
  assert (failure_signal s ev) as Hf by (exists t; done).
  destruct (failure_signal_step _ _ Hf) as (t' & Est & _ & Ereq).
  split; [apply (tok_one _ Hr)|]. split.
  { split; [apply (tok_locked _ Hr)|].
    intros (id & tm & Hid & Hact). by destruct (tok_lock _ Hr _ _ Hid Hact). }
  split; [|split].
  - intros Hlock Hlt.
    assert (schedules s = true) as Hs.
    { unfold schedules, retry_cap in *. rewrite Hlock. cbn [orb].
      destruct (Nat.ltb_spec 10 (S (retry s))); [lia|done]. }
    rewrite Ereq, Est, Hs. cbn [timers not_connecting set_connecting].
    split; [done|]. split.
    + destruct Hev as [-> | ->].
      * rewrite step_error by done. cbn [snd]. unfold reconnect_out.
        rewrite Hs. cbn. auto.
      * rewrite step_close by done. cbn [snd]. unfold reconnect_out.
        rewrite Hs. cbn. auto.
    + unfold reconnect_st. by rewrite Hs.
  - intros Hno.
    assert (schedules s = false) as Hs.
    { unfold schedules, retry_cap in *. destruct Hno as [-> | Hge]; [done|].
      destruct (lockReconnect s); [done|]. cbn [orb].
      destruct (Nat.ltb_spec 10 (S (retry s))); [done|lia]. }
    rewrite Ereq, Est, Hs. cbn [timers not_connecting set_connecting].
    split; [done|]. unfold reconnect_st. by rewrite Hs.
  - rewrite Est. cbn [retry not_connecting set_connecting].
    by destruct (reconnect_st_fields s).
Qed.

(** C8, as the code has it: a transition to Open restarts the heartbeat
    and, when the manager holds a transport that is no longer CONNECTING
    (the one that opens is not), sends exactly one frame on it: the template
    of ws.onopen with a space after each colon and the agent name spliced in
    as it is.  When it holds another transport, one that is still
    CONNECTING, send throws after the heartbeat is restarted and nothing is
    sent.  Every frame sent by any other task is the literal ping or
    JSON.stringify of a tool response. *)
Theorem introduction_on_open s t w :
  t ∈ sockets s -> ws s = Some w ->
  (step cfg env s (EvOpen t)).2
  = SetTimeout (next_timer s) (heartCheckTime cfg) ProbeTimer ::
    (if decide (w ∈ connecting s ∖ {[t]}) then [Uncaught InvalidStateError]
     else [WsSend w (intro_frame (agentName cfg)); Console LogOpen]) /\
  ((w ∈ connecting s -> w = t) ->
   (step cfg env s (EvOpen t)).2
   = [SetTimeout (next_timer s) (heartCheckTime cfg) ProbeTimer;
      WsSend w (intro_frame (agentName cfg));
      Console LogOpen]) /\
  timeoutObj (step cfg env s (EvOpen t)).1 = Some (next_timer s) /\
  timers (step cfg env s (EvOpen t)).1 !! next_timer s
  = Some {| t_delay := heartCheckTime cfg; t_act := ProbeTimer |} /\
  (forall s' ev w' payload,
     In (WsSend w' payload) (step cfg env s' ev).2 ->
     (forall t', ev <> EvOpen t') ->
     payload = "ping" \/
     exists d v, payload = JSON_stringify env (answerResp (agentName cfg) d v)).
Proof.
  intros Ht Hw. rewrite step_open by done. cbn [fst snd].
  unfold send_out. cbn [ws connecting not_connecting set_connecting].
  rewrite Hw.
  split; [done|]. split.
  { intros Hc. rewrite decide_False; [done|].
    intros [Hin Hne]%elem_of_difference. apply Hne, elem_of_singleton. auto. }
  split; [done|]. split; [cbn; apply lookup_insert_eq|].
  intros s' ev w' payload Hin Hev.
  destruct (sends_classified _ _ _ _ Hin)
    as [_ [(t' & -> & _)|[(id & -> & -> & _)|
          [(q & u & d & -> & _ & -> & _)|(c & u & d & -> & _ & -> & _)]]]];
    eauto.
  by destruct (Hev t').
Qed.


(** C10: when the promise of a tool request rejects, the reaction is
    dropped: the only effect is the host's report of an unhandled
    rejection, the manager's variables are untouched, no frame is sent, and
    the promise is never pending again, so that no later task answers the
    request. *)
Theorem rejected_handler_no_response s p data tr v :
  reachable s -> promises s !! p = Some data ->
  let s1 := (step cfg env s (EvReject p)).1 in
  let s2 := (run cfg env s1 tr).1 in
  step cfg env s (EvReject p) = (settle p s, [UnhandledRejection p]) /\
  (forall w payload, ~ In (WsSend w payload) (step cfg env s (EvReject p)).2) /\
  promises s2 !! p = None /\
  step cfg env s2 (EvResolve p v) = (s2, []) /\
  step cfg env s2 (EvReject p) = (s2, []).
Proof.
  intros Hr Hp s1 s2.
  assert (settled p s2) as [_ Hnone].
  { apply run_settled. unfold s1. rewrite (step_reject _ _ data) by done.
    split; cbn; [by apply (reachable_promises_ok _ Hr) in Hp|].
    apply lookup_delete_eq. }
  rewrite (step_reject _ _ data) by done.
  split; [done|]. split; [cbn; intuition congruence|]. split; [done|].
  unfold step. by rewrite Hnone.
Qed.
(** * Further properties of the manager *)

(** ** The function map *)

(** X1: addFunc takes effect at once and the last writer wins: whatever
    the map held for the name, the next tools request for it on the open
    session calls the function just registered, with the params of the
    request; other names keep their entries, and the call does nothing to
    the outside. *)
Theorem addFunc_effective s name func t raw data :
  t ∈ sockets s -> raw <> "pong" ->
  JSON_parse env raw = Some data -> nullish data = false ->
  prop data "msg_type" = JStr "tools" ->
  prop data "func_name" = JStr name ->
  let s1 := (step cfg env s (CallAddFunc name func)).1 in
  (step cfg env s (CallAddFunc name func)).2 = [] /\
  funcMap s1 !! name = Some func /\
  (forall other, other <> name -> funcMap s1 !! other = funcMap s !! other) /\
  (step cfg env s1 (EvMessage t raw)).2
  = [SetTimeout (next_timer s) (heartCheckTime cfg) ProbeTimer;
     Console (LogRecv raw);
     Invoke func (prop data "params") (next_promise s)].
Proof.
  intros Ht Hraw Hparse Hnull Hmt Hfn s1.
  unfold s1. rewrite step_addFunc. cbn [fst snd].
  split; [done|]. split; [cbn; apply lookup_insert_eq|].
  split; [intros other Hne; cbn; by rewrite lookup_insert_ne|].
  rewrite step_message by done. cbn [snd]. unfold msg_out, dispatch, lookup_entry.
  apply String.eqb_neq in Hraw. rewrite Hraw, Hparse, Hnull, Hmt, Hfn. cbn.
  by rewrite lookup_insert_eq.
Qed.

(** A handler call in the log of a task shows a tools request. *)
Lemma strict_eq_str_true v lit : strict_eq_str v lit = true -> v = JStr lit.
Proof.
  destruct v; cbn; try done. intros H. apply String.eqb_eq in H. by subst.
Qed.

Lemma dispatch_Calls fm raw h arg data :
  dispatch fm raw = Calls h arg data ->
  raw <> "pong" /\ JSON_parse env raw = Some data /\ nullish data = false /\
  prop data "msg_type" = JStr "tools" /\
  exists k,
    property_key env (prop data "func_name") = Some k /\
    (fm !! k = Some h /\ arg = prop data "params" \/
     fm !! k = None /\
     inherited env fm k (prop data "params") = Call h arg).
Proof.
  unfold dispatch. destruct (String.eqb raw "pong") eqn:Hpong; [done|].
  apply String.eqb_neq in Hpong.
  destruct (JSON_parse env raw) as [d|]; [|done].
  destruct (nullish d) eqn:Hnull; [done|].
  destruct (strict_eq_str (prop d "msg_type") "tools") eqn:Hmt; [|done].
  apply strict_eq_str_true in Hmt. unfold lookup_entry.
  destruct (property_key env (prop d "func_name")) as [k|] eqn:Hk; [|done].
  destruct (fm !! k) as [h'|] eqn:Hh.
  - intros [= <- <- <-]. repeat split; try done. exists k. auto.
  - destruct (inherited env fm k (prop d "params")) eqn:Hi; try done.
    intros [= <- <- <-]. repeat split; try done. exists k. auto.
Qed.

Lemma dispatch_Hands fm raw h data :
  dispatch fm raw = Hands h data ->
  raw <> "pong" /\ JSON_parse env raw = Some data /\ nullish data = false /\
  prop data "msg_type" = JStr "tools" /\
  exists k,
    property_key env (prop data "func_name") = Some k /\
    fm !! k = None /\
    inherited env fm k (prop data "params") = Pass h.
Proof.
  unfold dispatch. destruct (String.eqb raw "pong") eqn:Hpong; [done|].
  apply String.eqb_neq in Hpong.
  destruct (JSON_parse env raw) as [d|]; [|done].
  destruct (nullish d) eqn:Hnull; [done|].
  destruct (strict_eq_str (prop d "msg_type") "tools") eqn:Hmt; [|done].
  apply strict_eq_str_true in Hmt. unfold lookup_entry.
  destruct (property_key env (prop d "func_name")) as [k|] eqn:Hk; [|done].
  destruct (fm !! k) as [h'|] eqn:Hh; [done|].
  destruct (inherited env fm k (prop d "params")) eqn:Hi; try done.
  intros [= <- <-]. repeat split; try done. exists k. auto.
Qed.

Ltac no_call H :=
  cbn in H; repeat (destruct H as [<-|H]; [discriminate|]); by destruct H.

(** A function of the map is called in the message task only, by its
    request part. *)
Lemma calls_only_in_message s ev o :
  is_call o = true -> In o (step cfg env s ev).2 ->
  exists t raw, ev = EvMessage t raw /\ t ∈ sockets s /\ In o (msg_out raw s).
Proof.
  intros Ho Hin.
  assert (forall st payload more escapes,
            (forall e, is_call (escapes e) = false) ->
            ~ In o more ->
            ~ In o (send_out st payload more escapes)) as Hsend.
  { intros st payload more escapes Hesc Hmore.
    destruct (send_out_cases st payload more escapes)
      as [[-> _]|[(w & _ & _ & ->)|(w & _ & _ & ->)]]; cbn;
      [intros [<-|[]]; by rewrite Hesc in Ho..|].
    intros [<-|H]; [done|by apply Hmore]. }
  destruct ev as [t|t raw|t|t|id|q v|q| |name func|c v].
  - destruct (decide (t ∈ sockets s)) as [Ht|Ht].
    + rewrite step_open in Hin by done. cbn [snd] in Hin.
      destruct Hin as [<-|Hin]; [done|]. exfalso. revert Hin.
      apply Hsend; [done|]. intros [<-|[]]. done.
    + rewrite (step_foreign _ t) in Hin by eauto. done.
  - destruct (decide (t ∈ sockets s)) as [Ht|Ht].
    + rewrite step_message in Hin by done. cbn [snd] in Hin.
      destruct Hin as [<-|[<-|Hin]]; [done..|]. by exists t, raw.
    + rewrite (step_foreign _ t) in Hin by eauto 6. done.
  - destruct (decide (t ∈ sockets s)) as [Ht|Ht].
    + rewrite step_error in Hin by done. cbn in Hin. unfold reconnect_out in Hin.
      destruct (schedules s); no_call Hin.
    + rewrite (step_foreign _ t) in Hin by eauto 6. done.
  - destruct (decide (t ∈ sockets s)) as [Ht|Ht].
    + rewrite step_close in Hin by done. cbn in Hin. unfold reconnect_out in Hin.
      destruct (schedules s); no_call Hin.
    + rewrite (step_foreign _ t) in Hin by eauto 6. done.
  - destruct (timers s !! id) as [tm|] eqn:Hid.
    + rewrite (step_timer _ _ tm) in Hin by done. destruct (t_act tm).
      * cbn in Hin. unfold connect_out, reconnect_out in Hin.
        destruct (connect_fails _); [destruct (schedules _)|destruct (has_WebSocket cfg)];
          no_call Hin.
      * destruct (ws s) as [w|]; [destruct (decide (w ∈ connecting s))|];
          no_call Hin.
      * destruct (ws s); no_call Hin.
    + unfold step in Hin. by rewrite Hid in Hin.
  - destruct (promises s !! q) as [data|] eqn:Hq.
    + rewrite (step_resolve _ _ data) in Hin by done. cbn [snd] in Hin.
      exfalso. revert Hin. apply Hsend; [done|by intros []].
    + unfold step in Hin. by rewrite Hq in Hin.
  - destruct (promises s !! q) as [data|] eqn:Hq.
    + rewrite (step_reject _ _ data) in Hin by done. no_call Hin.
    + unfold step in Hin. by rewrite Hq in Hin.
  - rewrite step_callClose in Hin. destruct (ws s); no_call Hin.
  - rewrite step_addFunc in Hin. done.
  - destruct (callbacks s !! c) as [data|] eqn:Hc.
    + rewrite (step_callback _ _ data) in Hin by done. cbn [snd] in Hin.
      exfalso. revert Hin. apply Hsend; [done|by intros []].
    + unfold step in Hin. by rewrite Hc in Hin.
Qed.

(** X2: a function of the map is called by nothing but the message task of
    a frame other than pong that parses to an envelope with msg_type tools
    and whose func_name has a key.  Called with a value, it is the entry
    that the map holds, at that moment, for that key, and it gets the
    params of that frame; or, for a key that is no entry of the map but a
    property it inherits, it is the function that the inherited property
    calls, with the argument that one passes; the promise of the call is a
    new one.  Called with the then-callback, it is the function that the
    inherited property of a key that is no entry makes the target of
    then. *)
Theorem handler_called_only_on_request s ev h params p c :
  reachable s ->
  (In (Invoke h params p) (step cfg env s ev).2 ->
   exists t raw data k,
     ev = EvMessage t raw /\ t ∈ sockets s /\ raw <> "pong" /\
     JSON_parse env raw = Some data /\
     prop data "msg_type" = JStr "tools" /\
     property_key env (prop data "func_name") = Some k /\
     (funcMap s !! k = Some h /\ params = prop data "params" \/
      funcMap s !! k = None /\
      inherited env (funcMap s) k (prop data "params") = Call h params) /\
     p = next_promise s /\ promises s !! p = None) /\
  (In (HandOver h c) (step cfg env s ev).2 ->
   exists t raw data k,
     ev = EvMessage t raw /\ t ∈ sockets s /\ raw <> "pong" /\
     JSON_parse env raw = Some data /\
     prop data "msg_type" = JStr "tools" /\
     property_key env (prop data "func_name") = Some k /\
     funcMap s !! k = None /\
     inherited env (funcMap s) k (prop data "params") = Pass h /\
     c = next_promise s).
Proof.
  intros Hr.
  assert (promises s !! next_promise s = None) as Hfresh.
  { destruct (promises s !! next_promise s) as [d|] eqn:E; [|done].
    apply (reachable_promises_ok _ Hr) in E. lia. }
  split; intros Hin; apply calls_only_in_message in Hin as (t & raw & -> & Ht & Hin);
    try done; unfold msg_out in Hin;
    destruct (dispatch (funcMap s) raw) as [|e|h' arg data|h' data] eqn:Hd;
    try (cbn in Hin; intuition congruence).
  - destruct Hin as [[= <- <- <-]|[]].
    destruct (dispatch_Calls _ _ _ _ _ Hd)
      as (Hpong & Hparse & _ & Hmt & k & Hk & Hcase).
    exists t, raw, data, k. by repeat split.
  - destruct Hin as [[= <- <-]|[]].
    destruct (dispatch_Hands _ _ _ _ Hd)
      as (Hpong & Hparse & _ & Hmt & k & Hk & Hown & Hinh).
    exists t, raw, data, k. by repeat split.
Qed.

(** ** Frames that cannot be read *)

(** X3: a frame other than pong that JSON.parse rejects ends the message
    task with an uncaught SyntaxError, and one that parses to null with an
    uncaught TypeError; in both cases the heartbeat has been restarted
    before, no handler is called, nothing is sent and no reaction is left
    pending. *)
Theorem malformed_frame_throws s t raw :
  t ∈ sockets s -> raw <> "pong" ->
  JSON_parse env raw = None \/ JSON_parse env raw = Some JNull ->
  (step cfg env s (EvMessage t raw)).2
  = [SetTimeout (next_timer s) (heartCheckTime cfg) ProbeTimer;
     Console (LogRecv raw);
     Uncaught match JSON_parse env raw with
              | Some _ => TypeError
              | None => SyntaxError
              end] /\
  timeoutObj (step cfg env s (EvMessage t raw)).1 = Some (next_timer s) /\
  timers (step cfg env s (EvMessage t raw)).1 !! next_timer s
  = Some {| t_delay := heartCheckTime cfg; t_act := ProbeTimer |} /\
  promises (step cfg env s (EvMessage t raw)).1 = promises s.
Proof.
  intros Ht Hraw Hparse. apply String.eqb_neq in Hraw.
  rewrite step_message by done. cbn [fst snd].
  unfold msg_st, msg_out, dispatch. rewrite Hraw.
  destruct Hparse as [-> | ->]; cbn.
  - split; [done|]. split; [done|]. split; [apply lookup_insert_eq|done].
  - split; [done|]. split; [done|]. split; [apply lookup_insert_eq|done].
Qed.

(** ** Answers *)

(** X4: a request is answered at most once: the resolution of its promise
    runs the reaction once, producing one entry in the log, and from then
    on the promise is never pending again, so that a second resolution
    signal does nothing. *)
Theorem one_response_per_request s p data v tr v' :
  reachable s -> promises s !! p = Some data ->
  let s1 := (step cfg env s (EvResolve p v)).1 in
  let s2 := (run cfg env s1 tr).1 in
  length (step cfg env s (EvResolve p v)).2 = 1 /\
  promises s2 !! p = None /\
  step cfg env s2 (EvResolve p v') = (s2, []).
Proof.
  intros Hr Hp s1 s2.
  assert (settled p s2) as [_ Hnone].
  { apply run_settled. unfold s1. rewrite (step_resolve _ _ data) by done.
    split; cbn; [by apply (reachable_promises_ok _ Hr) in Hp|].
    apply lookup_delete_eq. }
  rewrite (step_resolve _ _ data) by done.
  split.
  { cbn [snd].
    by destruct (send_out_cases s
                   (JSON_stringify env (answerResp (agentName cfg) data v)) []
                   (fun _ => UnhandledRejection p))
      as [[-> _]|[(w & _ & _ & ->)|(w & _ & _ & ->)]]. }
  split; [done|].
  unfold step. by rewrite Hnone.
Qed.


(** ** Timers *)

(** X6: in every state the manager can reach, at most one heartbeat timer
    (probe or force-close) is pending, and it has the configured delay. *)
Theorem one_heartbeat_timer s id id' tm tm' :
  reachable s ->
  timers s !! id = Some tm -> timers s !! id' = Some tm' ->
  t_act tm <> ReconnectTimer -> t_act tm' <> ReconnectTimer ->
  id = id' /\ t_delay tm = heartCheckTime cfg.
Proof.
  intros Hr Hid Hid' Hact Hact'. apply reachable_timers_ok in Hr.
  destruct (t_act tm) eqn:E; [done| |]; destruct (t_act tm') eqn:E'; try done.
  - destruct (tok_probe _ Hr _ _ Hid E) as [H1 Hd].
    destruct (tok_probe _ Hr _ _ Hid' E') as [H2 _]. split; [congruence|done].
  - destruct (tok_excl _ Hr _ _ _ _ Hid Hid' E E').
  - destruct (tok_excl _ Hr _ _ _ _ Hid' Hid E' E).
  - destruct (tok_force _ Hr _ _ Hid E) as [H1 Hd].
    destruct (tok_force _ Hr _ _ Hid' E') as [H2 _]. split; [congruence|done].
Qed.

(** ** Construction that fails at once *)

Lemma step_sockets s ev t : t ∈ sockets s -> t ∈ sockets (step cfg env s ev).1.
Proof.
  intros Hin. destruct ev as [t0|t0 raw|t0|t0|id|p v|p| |name func|c v].
  - destruct (decide (t0 ∈ sockets s)) as [Ht|Ht].
    + by rewrite step_open.
    + by rewrite (step_foreign _ t0) by eauto.
  - destruct (decide (t0 ∈ sockets s)) as [Ht|Ht].
    + rewrite step_message by done. cbn [fst]. unfold msg_st.
      by destruct (dispatch _ _) as [|e|h arg data|h data].
    + by rewrite (step_foreign _ t0) by eauto 6.
  - destruct (decide (t0 ∈ sockets s)) as [Ht|Ht].
    + rewrite step_error by done. cbn. unfold reconnect_st.
      by destruct (schedules s).
    + by rewrite (step_foreign _ t0) by eauto 6.
  - destruct (decide (t0 ∈ sockets s)) as [Ht|Ht].
    + rewrite step_close by done. cbn. unfold reconnect_st.
      by destruct (schedules s).
    + by rewrite (step_foreign _ t0) by eauto 6.
  - destruct (timers s !! id) as [tm|] eqn:Hid.
    + rewrite (step_timer _ _ tm) by done.
      destruct (t_act tm);
        [|destruct (ws s) as [w|]; [by destruct (decide (w ∈ connecting s))|done]
         |by destruct (ws s)].
      cbn. unfold connect_st, reconnect_st.
      destruct (connect_fails _); [by destruct (schedules _)|].
      destruct (has_WebSocket cfg); cbn; [set_solver|].
      destruct (ws s); cbn; set_solver.
    + unfold step. by rewrite Hid.
  - destruct (promises s !! p) as [data|] eqn:Hp.
    + by rewrite (step_resolve _ _ data).
    + unfold step. by rewrite Hp.
  - destruct (promises s !! p) as [data|] eqn:Hp.
    + by rewrite (step_reject _ _ data).
    + unfold step. by rewrite Hp.
  - rewrite step_callClose. by destruct (ws s).
  - by rewrite step_addFunc.
  - destruct (callbacks s !! c) as [data|] eqn:Hc.
    + by rewrite (step_callback _ _ data).
    + unfold step. by rewrite Hc.
Qed.

Lemma run_sockets tr : forall s t,
  t ∈ sockets s -> t ∈ sockets (run cfg env s tr).1.
Proof.
  induction tr as [|ev tr IH]; intros s t Ht; [done|].
  rewrite run_cons. cbn [fst]. by apply IH, step_sockets.
Qed.

Lemma connect_fails_disconnected s :
  has_WebSocket cfg = false \/ ctor_throws cfg = true ->
  ws s = None -> is_Some (connect_fails s).
Proof.
  intros Hcfg Hw. unfold connect_fails. rewrite Hw.
  destruct (has_WebSocket cfg), (ctor_throws cfg); try done.
  by destruct Hcfg.
Qed.

Lemma step_disconnected s ev n :
  has_WebSocket cfg = false \/ ctor_throws cfg = true ->
  timers_ok s -> disconnected s ->
  n + (if lockReconnect s then 1 else 0) <= 2 ->
  disconnected (step cfg env s ev).1 /\
  n + attempts (step cfg env s ev).2
  + (if lockReconnect (step cfg env s ev).1 then 1 else 0) <= 2.
Proof.
  intros Hcfg Hok [Hw Hs] Hn.
  assert (forall t, t ∉ sockets s) as Hno by (intros t; rewrite Hs; set_solver).
  destruct ev as [t|t raw|t|t|id|p v|p| |name func|c v].
  - rewrite (step_foreign _ t) by eauto. cbn. split; [done|lia].
  - rewrite (step_foreign _ t) by eauto 6. cbn. split; [done|lia].
  - rewrite (step_foreign _ t) by eauto 6. cbn. split; [done|lia].
  - rewrite (step_foreign _ t) by eauto 6. cbn. split; [done|lia].
  - destruct (timers s !! id) as [tm|] eqn:Hid.
    2:{ unfold step. rewrite Hid. cbn. split; [done|lia]. }
    rewrite (step_timer _ _ tm), Hw by done.
    destruct (t_act tm) eqn:Hact; [|cbn; split; [done|lia]..].
    destruct (tok_lock _ Hok _ _ Hid Hact) as [Hlock _]. rewrite Hlock in Hn.
    cbn [fst snd lockReconnect set_lockReconnect].
    pose proof (connect_out_attempts (cancel (Some id) s)).
    split; [|lia].
    destruct (connect_fails_disconnected (cancel (Some id) s) Hcfg Hw) as [e He].
    unfold disconnected, connect_st. rewrite He. cbn.
    unfold reconnect_st. by destruct (schedules _).
  - destruct (promises s !! p) as [data|] eqn:Hp.
    + rewrite (step_resolve _ _ data) by done. unfold send_out. rewrite Hw.
      cbn. split; [done|lia].
    + unfold step. rewrite Hp. cbn. split; [done|lia].
  - destruct (promises s !! p) as [data|] eqn:Hp.
    + rewrite (step_reject _ _ data) by done. cbn. split; [done|lia].
    + unfold step. rewrite Hp. cbn. split; [done|lia].
  - rewrite step_callClose, Hw. cbn. split; [done|lia].
  - rewrite step_addFunc. cbn. split; [done|lia].
  - destruct (callbacks s !! c) as [data|] eqn:Hc.
    + rewrite (step_callback _ _ data) by done. unfold send_out. rewrite Hw.
      cbn. split; [done|lia].
    + unfold step. rewrite Hc. cbn. split; [done|lia].
Qed.

Lemma run_disconnected tr : forall s n,
  has_WebSocket cfg = false \/ ctor_throws cfg = true ->
  timers_ok s -> disconnected s ->
  n + (if lockReconnect s then 1 else 0) <= 2 ->
  disconnected (run cfg env s tr).1 /\
  n + attempts (run cfg env s tr).2
  + (if lockReconnect (run cfg env s tr).1 then 1 else 0) <= 2.
Proof.
  induction tr as [|ev tr IH]; intros s n Hcfg Hok Hd Hn.
  - cbn. split; [done|lia].
  - rewrite run_cons. cbn [fst snd]. rewrite attempts_app, Nat.add_assoc.
    destruct (step_disconnected s ev n Hcfg Hok Hd Hn) as [Hd1 Hn1].
    apply IH; [done|by apply step_timers_ok|done|done].
Qed.

(** X7: when the transport cannot even be constructed (there is no
    WebSocket in window, or the constructor throws), the manager makes at
    most two attempts in its whole life: the catch block of the first
    attempt schedules a retry, and the catch block of that retry calls
    reconnect while the lock is still held, which schedules nothing.  No
    transport is ever held. *)
Theorem failed_construction_two_attempts fm tr :
  has_WebSocket cfg = false \/ ctor_throws cfg = true ->
  attempts ((WebSocketManager cfg fm).2
            ++ (run cfg env (WebSocketManager cfg fm).1 tr).2) <= 2 /\
  ws (run cfg env (WebSocketManager cfg fm).1 tr).1 = None /\
  requests ((WebSocketManager cfg fm).2) = 1.
Proof.
  intros Hcfg.
  destruct (connect_fails_disconnected (blank fm) Hcfg eq_refl) as [e He].
  assert (disconnected (WebSocketManager cfg fm).1 /\
          lockReconnect (WebSocketManager cfg fm).1 = true /\
          attempts (WebSocketManager cfg fm).2 = 1 /\
          requests (WebSocketManager cfg fm).2 = 1) as (Hd & Hlock & Ha & Hq).
  { rewrite WebSocketManager_eq. unfold connect_st, connect_out. rewrite He.
    cbn [fst snd]. by repeat split. }
  destruct (run_disconnected tr _ (attempts (WebSocketManager cfg fm).2)
              Hcfg (init_timers_ok fm) Hd) as [[Hw _] Hn].
  { rewrite Hlock, Ha. lia. }
  rewrite attempts_app. split; [|done].
  destruct (lockReconnect _); lia.
Qed.

(** ** close() *)

(** X8: close() releases the held transport with one call of ws.close()
    and a second close() does nothing at all; close() without a transport
    only sets the flag. *)
Theorem close_twice s :
  let s1 := (step cfg env s CallClose).1 in
  isClosed s1 = true /\ ws s1 = None /\
  (step cfg env s CallClose).2
  = match ws s with
    | Some w => [WsClose w]
    | None => []
    end /\
  step cfg env s1 CallClose = (s1, []).
Proof.
  intros s1. unfold s1. rewrite !step_callClose.
  destruct (ws s) eqn:Hw; cbn; rewrite ?Hw; by repeat split.
Qed.

(** X9: the manager closes no transport but the one it holds, and only in
    close() or when the force-close timer of the heartbeat fires; a
    transport that a reconnection replaces is not closed. *)
Theorem transport_closed_only_by s ev w :
  In (WsClose w) (step cfg env s ev).2 ->
  ws s = Some w /\
  (ev = CallClose \/
   exists id tm, ev = EvTimer id /\ timers s !! id = Some tm /\
                 t_act tm = ForceCloseTimer).
Proof.
  intros Hin.
  assert (forall st payload more escapes,
            (forall e, escapes e <> WsClose w) -> ~ In (WsClose w) more ->
            ~ In (WsClose w) (send_out st payload more escapes)) as Hsend.
  { intros st payload more escapes Hesc Hmore.
    destruct (send_out_cases st payload more escapes)
      as [[-> _]|[(w' & _ & _ & ->)|(w' & _ & _ & ->)]]; cbn;
      [intros [H|[]]; by eapply Hesc..|].
    intros [H|H]; [done|by apply Hmore]. }
  destruct ev as [t|t raw|t|t|id|q v|q| |name func|c v].
  - destruct (decide (t ∈ sockets s)) as [Ht|Ht].
    + rewrite step_open in Hin by done. cbn [snd] in Hin.
      destruct Hin as [[=]|Hin]. exfalso. revert Hin. apply Hsend; [done|].
      cbn. intuition congruence.
    + rewrite (step_foreign _ t) in Hin by eauto. done.
  - destruct (decide (t ∈ sockets s)) as [Ht|Ht].
    + rewrite step_message in Hin by done. cbn [snd] in Hin.
      unfold msg_out in Hin.
      destruct (dispatch _ _) as [|e|h arg data|h data];
        cbn in Hin; intuition congruence.
    + rewrite (step_foreign _ t) in Hin by eauto 6. done.
  - destruct (decide (t ∈ sockets s)) as [Ht|Ht].
    + rewrite step_error in Hin by done. cbn in Hin. unfold reconnect_out in Hin.
      destruct (schedules s); cbn in Hin; intuition congruence.
    + rewrite (step_foreign _ t) in Hin by eauto 6. done.
  - destruct (decide (t ∈ sockets s)) as [Ht|Ht].
    + rewrite step_close in Hin by done. cbn in Hin. unfold reconnect_out in Hin.
      destruct (schedules s); cbn in Hin; intuition congruence.
    + rewrite (step_foreign _ t) in Hin by eauto 6. done.
  - destruct (timers s !! id) as [tm|] eqn:Hid.
    + rewrite (step_timer _ _ tm) in Hin by done. destruct (t_act tm) eqn:Hact.
      * cbn in Hin. unfold connect_out, reconnect_out in Hin.
        destruct (connect_fails _); [destruct (schedules _)|destruct (has_WebSocket cfg)];
          cbn in Hin; intuition congruence.
      * destruct (ws s) as [w'|]; [destruct (decide (w' ∈ connecting s))|];
          cbn in Hin; intuition congruence.
      * destruct (ws s) as [w'|]; cbn in Hin; [|intuition congruence].
        destruct Hin as [[= ->]|[]]. split; [done|]. right. by exists id, tm.
    + unfold step in Hin. by rewrite Hid in Hin.
  - destruct (promises s !! q) as [data|] eqn:Hq.
    + rewrite (step_resolve _ _ data) in Hin by done. cbn [snd] in Hin.
      exfalso. revert Hin. apply Hsend; [done|by intros []].
    + unfold step in Hin. by rewrite Hq in Hin.
  - destruct (promises s !! q) as [data|] eqn:Hq.
    + rewrite (step_reject _ _ data) in Hin by done. cbn in Hin. intuition congruence.
    + unfold step in Hin. by rewrite Hq in Hin.
  - rewrite step_callClose in Hin. destruct (ws s) as [w'|]; cbn in Hin; [|done].
    destruct Hin as [[= ->]|[]]. by split; [|left].
  - rewrite step_addFunc in Hin. done.
  - destruct (callbacks s !! c) as [data|] eqn:Hc.
    + rewrite (step_callback _ _ data) in Hin by done. cbn [snd] in Hin.
      exfalso. revert Hin. apply Hsend; [done|by intros []].
    + unfold step in Hin. by rewrite Hc in Hin.
Qed.

(** X10: close() while the transport is still connecting does not disarm
    its open callback: when the open event arrives it arms a probe timer
    and then throws a TypeError on the null transport, so that no
    introduction is sent. *)
Theorem open_after_close_throws s t :
  t ∈ sockets s ->
  let s1 := (step cfg env s CallClose).1 in
  (step cfg env s1 (EvOpen t)).2
  = [SetTimeout (next_timer s) (heartCheckTime cfg) ProbeTimer;
     Uncaught TypeError] /\
  timers (step cfg env s1 (EvOpen t)).1 !! next_timer s
  = Some {| t_delay := heartCheckTime cfg; t_act := ProbeTimer |}.
Proof.
  intros Ht s1.
  assert (ws s1 = None /\ sockets s1 = sockets s /\ next_timer s1 = next_timer s)
    as (Hw & Hs & Hn).
  { unfold s1. rewrite step_callClose. by destruct (ws s) eqn:E. }
  rewrite step_open by by rewrite Hs. unfold send_out.
  cbn [ws not_connecting set_connecting]. rewrite Hw, Hn. split; [done|].
  cbn. rewrite Hn. apply lookup_insert_eq.
Qed.

Lemma not_connecting_id t s : t ∉ connecting s -> not_connecting t s = s.
Proof.
  intros Ht. destruct s. unfold not_connecting, set_connecting. cbn in *.
  f_equal. apply difference_disjoint_L, disjoint_singleton_r, Ht.
Qed.

(** X11: callbacks are never taken off a transport: one that carried them
    once carries them in every later state, also after it has been
    replaced or released; and once it is no longer CONNECTING its events
    are handled exactly like those of any other such transport of the
    manager, the one currently held included: the callbacks act on the
    variable ws and not on the transport they are called on. *)
Theorem callbacks_never_detached s t tr t' raw :
  t ∈ sockets s ->
  let s' := (run cfg env s tr).1 in
  t ∈ sockets s' /\
  (t' ∈ sockets s' -> t ∉ connecting s' -> t' ∉ connecting s' ->
   step cfg env s' (EvOpen t) = step cfg env s' (EvOpen t') /\
   step cfg env s' (EvMessage t raw) = step cfg env s' (EvMessage t' raw) /\
   step cfg env s' (EvError t) = step cfg env s' (EvError t') /\
   step cfg env s' (EvClose t) = step cfg env s' (EvClose t')).
Proof.
  intros Ht s'.
  assert (t ∈ sockets s') as Ht' by by apply run_sockets.
  split; [done|]. intros Ht2 Hc Hc'.
  unfold step. rewrite !decide_True by done.
  by rewrite !not_connecting_id by done.
Qed.
End Properties.

(** * The concrete manager at work *)

Lemma after_reachable tr : reachable cfg0 env0 (after tr).
Proof. by exists fm0, tr. Qed.

Ltac conj_compute :=
  repeat match goal with |- _ /\ _ => split end; vm_compute; try reflexivity.

(** ** C1: close() does not stop the reconnection policy *)

(** C1 fails on the code: [isClosed] is written by close() and read
    nowhere (lemma isClosed_unread).  After open and close(), the close
    event of the released transport runs reconnect, which schedules a
    timer, and the timer constructs a second transport. *)
Theorem close_not_terminal :
  let r := run cfg0 env0 start0 [EvOpen 0; CallClose; EvClose 0; EvTimer 1] in
  isClosed (after [EvOpen 0; CallClose]) = true /\
  ws (after [EvOpen 0; CallClose]) = None /\
  r.2 = [ SetTimeout 0 59000 ProbeTimer;
          WsSend 0 (intro_frame "A1");
          Console LogOpen;
          WsClose 0;
          SetTimeout 1 2000 ReconnectTimer;
          Console LogClose;
          WsNew 1 "ws://localhost:8765" ] /\
  isClosed r.1 = true /\
  ws r.1 = Some 1.
Proof. cbv zeta. conj_compute. Qed.

(** ** C2 *)

(** C2 fails as stated: after one failure and a successful open of the
    second transport the counter still reads 1; after ten failures and a
    successful open, the next close signal schedules nothing. *)
Lemma open_keeps_retry :
  ws (after [EvError 0; EvTimer 0; EvOpen 1]) = Some 1 /\
  retry (after [EvError 0; EvTimer 0; EvOpen 1]) = 1 /\
  retry (after [EvError 0; EvTimer 0; EvOpen 1]) <> 0 /\
  retry (after (rounds 10 ++ [EvOpen 10])) = 10 /\
  (step cfg0 env0 (after (rounds 10 ++ [EvOpen 10])) (EvClose 10)).2
  = [Console LogClose].
Proof. conj_compute. discriminate. Qed.

(** ** C3 *)


(** ** C4 *)



(** ** C5 *)

(** C5 fails as stated: the transport of request 7 drops and the manager
    reconnects; the result arrives while the second transport is still
    CONNECTING.  send throws inside the then-callback: the promise has
    resolved, no response frame is sent, and none is sent later. *)
Lemma resolved_without_response :
  promises (after [EvOpen 0; EvMessage 0 req_frame; EvClose 0; EvTimer 2]) !! 0
  = Some req_data /\
  ws (after [EvOpen 0; EvMessage 0 req_frame; EvClose 0; EvTimer 2]) = Some 1 /\
  (step cfg0 env0
     (after [EvOpen 0; EvMessage 0 req_frame; EvClose 0; EvTimer 2])
     (EvResolve 0 (JStr "ok"))).2
  = [UnhandledRejection 0] /\
  (run cfg0 env0
     (after [EvOpen 0; EvMessage 0 req_frame; EvClose 0; EvTimer 2])
     [EvResolve 0 (JStr "ok"); EvOpen 1; EvResolve 0 (JStr "ok")]).2
  = [UnhandledRejection 0;
     SetTimeout 3 59000 ProbeTimer; WsSend 1 (intro_frame "A1"); Console LogOpen].
Proof. conj_compute. Qed.

(** The end-to-end scenario: request 7 for ping_tool, which resolves to ok
    after another frame has been handled. *)
Lemma tool_request_answered_witness :
  JSON_parse env0 req_frame = Some req_data /\
  funcMap (after [EvOpen 0]) !! "ping_tool" = Some 0 /\
  (step cfg0 env0 (after [EvOpen 0]) (EvMessage 0 req_frame)).2
  = [SetTimeout 1 59000 ProbeTimer; Console (LogRecv req_frame);
     Invoke 0 (JObj []) 0] /\
  (step cfg0 env0
     (run cfg0 env0
        (step cfg0 env0 (after [EvOpen 0]) (EvMessage 0 req_frame)).1
        [EvMessage 0 unknown_frame]).1
     (EvResolve 0 (JStr "ok"))).2
  = [WsSend 0 resp_frame].
Proof.
  assert (JSON_parse env0 req_frame = Some req_data) as Hparse
    by (vm_compute; reflexivity).
  assert (funcMap (after [EvOpen 0]) !! "ping_tool" = Some 0) as Hh
    by (vm_compute; reflexivity).
  assert (0 ∈ sockets (after [EvOpen 0])) as Hin by (vm_compute; reflexivity).
  assert (req_frame <> "pong") as Hne by (vm_compute; discriminate).
  assert (Forall (fun ev => ~ settles (next_promise (after [EvOpen 0])) ev)
            [EvMessage 0 unknown_frame]) as Hall.
  { repeat constructor. intros [H|[v H]]; discriminate. }
  destruct (tool_request_answered cfg0 env0
              (after [EvOpen 0]) 0 req_frame req_data "ping_tool" 0
              [EvMessage 0 unknown_frame] (JStr "ok")
              (after_reachable _) Hin Hne Hparse eq_refl eq_refl eq_refl Hh
              Hall)
    as (Hinv & _ & Hresp & _).
  split; [exact Hparse|]. split; [exact Hh|].
  split; [exact Hinv|].
  refine (eq_trans (f_equal snd Hresp) _). vm_compute. reflexivity.
Defined.

(** ** C6 *)

(** C6 fails as stated: an error and a close for the same dead transport
    are two failure signals, received before close() and below the cap; they schedule one
    reconnection, not two. *)
Lemma two_signals_one_reconnect :
  isClosed (after [EvError 0; EvClose 0]) = false /\
  retry (after [EvError 0; EvClose 0]) = 2 /\
  requests (run cfg0 env0 start0 [EvError 0; EvClose 0]).2 = 1 /\
  requests (run cfg0 env0 start0 [EvError 0; EvClose 0]).2
  <> length [EvError 0; EvClose 0].
Proof. conj_compute. discriminate. Qed.

(** The error of the first transport schedules a reconnection; its close,
    arriving while that one is pending, schedules none and is counted. *)
Lemma reconnect_single_pending_witness :
  0 ∈ sockets start0 /\
  requests (step cfg0 env0 start0 (EvError 0)).2 = 1 /\
  requests (step cfg0 env0 (after [EvError 0]) (EvClose 0)).2 = 0 /\
  retry (step cfg0 env0 (after [EvError 0]) (EvClose 0)).1 = 2.
Proof.
  assert (0 ∈ sockets start0) as Hin by (vm_compute; reflexivity).
  assert (0 ∈ sockets (after [EvError 0])) as Hin' by (vm_compute; reflexivity).
  destruct (reconnect_single_pending cfg0 env0 start0 0 (EvError 0)
              (after_reachable []) Hin (or_introl eq_refl))
    as (_ & _ & Hfree & _ & _).
  destruct (reconnect_single_pending cfg0 env0 (after [EvError 0]) 0 (EvClose 0)
              (after_reachable _) Hin' (or_intror eq_refl))
    as (_ & _ & _ & Hheld & Hretry).
  split; [exact Hin|].
  split; [apply Hfree; vm_compute; [reflexivity|lia]|].
  split; [apply Hheld; left; vm_compute; reflexivity|].
  rewrite Hretry. vm_compute; reflexivity.
Defined.

(** ** C7: close() leaves the heartbeat timers armed *)

(** C7 fails on the code: close() does not call heartCheck.reset().  The
    probe timer armed on open is still pending after close(); when it fires
    it reads [ws], which close() set to null, and throws.  The same holds
    for a force-close timer armed before close().  If the manager has
    reconnected in the meantime, the stale probe finds the new transport,
    still CONNECTING, and send throws on it. *)
Theorem close_leaves_heartbeat_armed :
  ws (after [EvOpen 0; CallClose]) = None /\
  timers (after [EvOpen 0; CallClose]) !! 0
  = Some {| t_delay := 59000; t_act := ProbeTimer |} /\
  (step cfg0 env0 (after [EvOpen 0; CallClose]) (EvTimer 0)).2
  = [Uncaught TypeError] /\
  timers (after [EvOpen 0; EvTimer 0; CallClose]) !! 1
  = Some {| t_delay := 59000; t_act := ForceCloseTimer |} /\
  (step cfg0 env0 (after [EvOpen 0; EvTimer 0; CallClose]) (EvTimer 1)).2
  = [Uncaught TypeError] /\
  (step cfg0 env0 (after [EvOpen 0; CallClose; EvClose 0; EvTimer 1]) (EvTimer 0)).2
  = [Uncaught InvalidStateError].
Proof. conj_compute. Qed.

(** ** C8 *)

(** C8 fails as stated: the frame the code sends differs from the wire
    format of the spec, it has a space after each colon. *)
Lemma intro_frame_not_wire_format :
  (step cfg0 env0 start0 (EvOpen 0)).2
  = [SetTimeout 0 59000 ProbeTimer; WsSend 0 (intro_frame "A1"); Console LogOpen] /\
  String.eqb (intro_frame "A1") (spec_intro_frame "A1") = false /\
  String.length (intro_frame "A1") = 2 + String.length (spec_intro_frame "A1").
Proof. conj_compute. Qed.

(** The first transport opens. *)
Lemma introduction_on_open_witness :
  0 ∈ sockets start0 /\ ws start0 = Some 0 /\
  (step cfg0 env0 start0 (EvOpen 0)).2
  = [SetTimeout 0 59000 ProbeTimer; WsSend 0 (intro_frame "A1"); Console LogOpen].
Proof.
  assert (0 ∈ sockets start0) as Hin by (vm_compute; reflexivity).
  assert (ws start0 = Some 0) as Hw by (vm_compute; reflexivity).
  destruct (introduction_on_open cfg0 env0 start0 0 0 Hin Hw) as (_ & Hout & _).
  split; [exact Hin|]. split; [exact Hw|]. apply Hout. reflexivity.
Defined.

(** ** C9 *)



(** ** C10 *)

(** The promise of request 7 rejects; a later resolution signal for the
    same promise finds nothing to run. *)
Lemma rejected_handler_no_response_witness :
  promises (after [EvOpen 0; EvMessage 0 req_frame]) !! 0 = Some req_data /\
  (step cfg0 env0 (after [EvOpen 0; EvMessage 0 req_frame]) (EvReject 0)).2
  = [UnhandledRejection 0] /\
  (step cfg0 env0
     (run cfg0 env0
        (step cfg0 env0 (after [EvOpen 0; EvMessage 0 req_frame]) (EvReject 0)).1
        [EvTimer 1]).1
     (EvResolve 0 (JStr "late"))).2
  = [].
Proof.
  assert (promises (after [EvOpen 0; EvMessage 0 req_frame]) !! 0 = Some req_data)
    as Hp by (vm_compute; reflexivity).
  destruct (rejected_handler_no_response cfg0 env0
              (after [EvOpen 0; EvMessage 0 req_frame]) 0 req_data
              [EvTimer 1] (JStr "late") (after_reachable _) Hp)
    as (Hrej & _ & _ & Hlate & _).
  split; [exact Hp|]. split; [exact (f_equal snd Hrej)|].
  exact (f_equal snd Hlate).
Defined.

(** ** Failures that use up the budget faster *)

(** When every failed attempt delivers both an error and a close, the
    counter grows by two per attempt and the manager gives up after six
    attempts. *)
Example double_signals_six_attempts :
  attempts ((WebSocketManager cfg0 fm0).2
            ++ (run cfg0 env0 start0 (double_rounds 5 ++ [EvError 5; EvClose 5])).2)
  = 6 /\
  retry (after (double_rounds 5 ++ [EvError 5; EvClose 5])) = 12 /\
  lockReconnect (after (double_rounds 5 ++ [EvError 5; EvClose 5])) = false /\
  timers (after (double_rounds 5 ++ [EvError 5; EvClose 5])) = ∅.
Proof. conj_compute. Qed.

(** When the constructor throws, the call of reconnect made by the catch
    block inside the reconnect timer finds the lock still held: the second
    attempt is the last. *)
Example throwing_constructor_two_attempts :
  (WebSocketManager cfg_bad_url fm0).2
  = [SetTimeout 0 2000 ReconnectTimer; Console (ErrCaught DOMException)] /\
  (run cfg_bad_url env0 (WebSocketManager cfg_bad_url fm0).1 [EvTimer 0]).2
  = [Console (ErrCaught DOMException)] /\
  retry (run cfg_bad_url env0 (WebSocketManager cfg_bad_url fm0).1 [EvTimer 0]).1
  = 2 /\
  timers (run cfg_bad_url env0 (WebSocketManager cfg_bad_url fm0).1 [EvTimer 0]).1
  = ∅.
Proof. conj_compute. Qed.

(** A map with an entry named then, and a request for valueOf: the
    inherited valueOf returns the map, and the entry then is called with
    the callback.  When that function calls the callback, the response goes
    out. *)
Example callback_handed_to_then :
  (run cfg0 env0 (WebSocketManager cfg0 fm_then).1
     [EvOpen 0; EvMessage 0 valueOf_frame; EvCallback 0 (JStr "ok")]).2
  = [SetTimeout 0 59000 ProbeTimer; WsSend 0 (intro_frame "A1"); Console LogOpen;
     SetTimeout 1 59000 ProbeTimer; Console (LogRecv valueOf_frame);
     HandOver 5 0;
     WsSend 0 resp_frame].
Proof. conj_compute. Qed.


(** * Further properties at work *)

(** X1: the request for nope, dropped before, is served once the name is
    registered. *)
Lemma addFunc_effective_witness :
  funcMap (after [EvOpen 0]) !! "nope" = None /\
  (step cfg0 env0
     (step cfg0 env0 (after [EvOpen 0]) (CallAddFunc "nope" 9)).1
     (EvMessage 0 unknown_frame)).2
  = [SetTimeout 1 59000 ProbeTimer; Console (LogRecv unknown_frame);
     Invoke 9 (JObj []) 0].
Proof.
  assert (0 ∈ sockets (after [EvOpen 0])) as Hin by (vm_compute; reflexivity).
  assert (unknown_frame <> "pong") as Hne by (vm_compute; discriminate).
  assert (JSON_parse env0 unknown_frame = Some unknown_data) as Hparse
    by (vm_compute; reflexivity).
  destruct (addFunc_effective cfg0 env0 (after [EvOpen 0]) "nope" 9 0
              unknown_frame unknown_data Hin Hne Hparse eq_refl eq_refl eq_refl)
    as (_ & _ & _ & Hout).
  split; [vm_compute; reflexivity|]. rewrite Hout. vm_compute. reflexivity.
Defined.

(** X2: the call of handler 0 in the log of the end-to-end scenario. *)
Lemma handler_called_only_on_request_witness :
  In (Invoke 0 (JObj []) 0)
     (step cfg0 env0 (after [EvOpen 0]) (EvMessage 0 req_frame)).2 /\
  exists t raw data k,
    EvMessage 0 req_frame = EvMessage t raw /\
    JSON_parse env0 raw = Some data /\
    property_key env0 (prop data "func_name") = Some k /\
    (funcMap (after [EvOpen 0]) !! k = Some 0 /\ JObj [] = prop data "params" \/
     funcMap (after [EvOpen 0]) !! k = None /\
     inherited env0 (funcMap (after [EvOpen 0])) k (prop data "params")
     = Call 0 (JObj [])).
Proof.
  assert (In (Invoke 0 (JObj []) 0)
            (step cfg0 env0 (after [EvOpen 0]) (EvMessage 0 req_frame)).2) as Hin.
  { vm_compute. right. right. left. reflexivity. }
  destruct (handler_called_only_on_request cfg0 env0 (after [EvOpen 0])
              (EvMessage 0 req_frame) 0 (JObj []) 0 0 (after_reachable _))
    as [Hcall _].
  destruct (Hcall Hin)
    as (t & raw & data & k & Hev & _ & _ & Hparse & _ & Hk & Hh & _).
  split; [exact Hin|]. exists t, raw, data, k. split; [exact Hev|].
  split; [exact Hparse|]. split; [exact Hk|exact Hh].
Defined.

(** X3: a frame that is not JSON. *)
Lemma malformed_frame_throws_witness :
  JSON_parse env0 "garbage" = None /\
  (step cfg0 env0 (after [EvOpen 0]) (EvMessage 0 "garbage")).2
  = [SetTimeout 1 59000 ProbeTimer; Console (LogRecv "garbage");
     Uncaught SyntaxError].
Proof.
  assert (0 ∈ sockets (after [EvOpen 0])) as Hin by (vm_compute; reflexivity).
  assert ("garbage" <> "pong") as Hne by discriminate.
  assert (JSON_parse env0 "garbage" = None) as Hparse by (vm_compute; reflexivity).
  destruct (malformed_frame_throws cfg0 env0 (after [EvOpen 0]) 0 "garbage"
              Hin Hne (or_introl Hparse)) as (Hout & _).
  split; [exact Hparse|]. rewrite Hout. vm_compute. reflexivity.
Defined.

(** X4: request 7 is answered; a second resolution signal finds nothing. *)
Lemma one_response_per_request_witness :
  promises (after [EvOpen 0; EvMessage 0 req_frame]) !! 0 = Some req_data /\
  (step cfg0 env0
     (run cfg0 env0
        (step cfg0 env0 (after [EvOpen 0; EvMessage 0 req_frame])
           (EvResolve 0 (JStr "ok"))).1
        [EvMessage 0 "pong"]).1
     (EvResolve 0 (JStr "again"))).2
  = [].
Proof.
  assert (promises (after [EvOpen 0; EvMessage 0 req_frame]) !! 0 = Some req_data)
    as Hp by (vm_compute; reflexivity).
  destruct (one_response_per_request cfg0 env0
              (after [EvOpen 0; EvMessage 0 req_frame]) 0 req_data (JStr "ok")
              [EvMessage 0 "pong"] (JStr "again") (after_reachable _) Hp)
    as (_ & _ & Hagain).
  split; [exact Hp|exact (f_equal snd Hagain)].
Defined.


(** X6: a probe and a reconnect timer are pending together; the probe is
    the only heartbeat timer. *)
Lemma one_heartbeat_timer_witness :
  timers (after [EvOpen 0; EvError 0]) !! 0
  = Some {| t_delay := 59000; t_act := ProbeTimer |} /\
  timers (after [EvOpen 0; EvError 0]) !! 1
  = Some {| t_delay := 2000; t_act := ReconnectTimer |} /\
  0 = 0 /\ 59000%Z = heartCheckTime cfg0.
Proof.
  assert (timers (after [EvOpen 0; EvError 0]) !! 0
          = Some {| t_delay := 59000; t_act := ProbeTimer |}) as Hp
    by (vm_compute; reflexivity).
  assert (ProbeTimer <> ReconnectTimer) as Hne by discriminate.
  destruct (one_heartbeat_timer cfg0 env0 (after [EvOpen 0; EvError 0]) 0 0
              _ _ (after_reachable _) Hp Hp Hne Hne) as [Heq Hd].
  split; [exact Hp|]. split; [vm_compute; reflexivity|].
  split; [exact Heq|exact Hd].
Defined.

(** X7: a url that the constructor refuses. *)
Lemma failed_construction_two_attempts_witness :
  ctor_throws cfg_bad_url = true /\
  attempts ((WebSocketManager cfg_bad_url fm0).2
            ++ (run cfg_bad_url env0 (WebSocketManager cfg_bad_url fm0).1
                  [EvTimer 0; EvTimer 0; EvTimer 1; EvError 0]).2) <= 2 /\
  ws (run cfg_bad_url env0 (WebSocketManager cfg_bad_url fm0).1
        [EvTimer 0; EvTimer 0; EvTimer 1; EvError 0]).1 = None.
Proof.
  destruct (failed_construction_two_attempts cfg_bad_url env0 fm0
              [EvTimer 0; EvTimer 0; EvTimer 1; EvError 0]
              (or_intror eq_refl)) as (Hle & Hw & _).
  split; [reflexivity|]. split; [exact Hle|exact Hw].
Defined.

(** X9: the force-close timer closes the held transport. *)
Lemma transport_closed_only_by_witness :
  In (WsClose 0) (step cfg0 env0 (after [EvOpen 0; EvTimer 0]) (EvTimer 1)).2 /\
  ws (after [EvOpen 0; EvTimer 0]) = Some 0.
Proof.
  assert (In (WsClose 0)
            (step cfg0 env0 (after [EvOpen 0; EvTimer 0]) (EvTimer 1)).2) as Hin.
  { vm_compute. left. reflexivity. }
  destruct (transport_closed_only_by cfg0 env0 (after [EvOpen 0; EvTimer 0])
              (EvTimer 1) 0 Hin) as [Hw _].
  split; [exact Hin|exact Hw].
Defined.

(** X10: close() right after construction, then the open event. *)
Lemma open_after_close_throws_witness :
  0 ∈ sockets start0 /\
  (step cfg0 env0 (step cfg0 env0 start0 CallClose).1 (EvOpen 0)).2
  = [SetTimeout 0 59000 ProbeTimer; Uncaught TypeError].
Proof.
  assert (0 ∈ sockets start0) as Hin by (vm_compute; reflexivity).
  destruct (open_after_close_throws cfg0 env0 start0 0 Hin) as [Hout _].
  split; [exact Hin|]. rewrite Hout. vm_compute. reflexivity.
Defined.

(** X11: after a reconnection and the open of the second transport, the
    first one still carries the callbacks, and a close event of it counts
    like one of the second. *)
Lemma callbacks_never_detached_witness :
  ws (run cfg0 env0 start0 [EvError 0; EvTimer 0; EvOpen 1]).1 = Some 1 /\
  0 ∈ sockets (run cfg0 env0 start0 [EvError 0; EvTimer 0; EvOpen 1]).1 /\
  step cfg0 env0 (run cfg0 env0 start0 [EvError 0; EvTimer 0; EvOpen 1]).1
    (EvClose 0)
  = step cfg0 env0 (run cfg0 env0 start0 [EvError 0; EvTimer 0; EvOpen 1]).1
      (EvClose 1).
Proof.
  assert (0 ∈ sockets start0) as Hin by (vm_compute; reflexivity).
  destruct (callbacks_never_detached cfg0 env0 start0 0
              [EvError 0; EvTimer 0; EvOpen 1] 1 "pong" Hin) as [Hstill Hsame].
  destruct Hsame as (_ & _ & _ & Hclose);
    [vm_compute; reflexivity
    |intros H; vm_compute in H; discriminate H
    |intros H; vm_compute in H; discriminate H|].
  split; [vm_compute; reflexivity|]. split; [exact Hstill|exact Hclose].
Defined.

(** * Facts about getUniqueSelector *)

Module SelectorFacts.
Import Selector.

Section WithDom.

Variable dom : Dom.

Lemma count_same_length tag index siblings :
  count_same tag index siblings
  = index + length (List.filter (same_tag tag) siblings).
Proof.
  revert index. induction siblings as [|sibling rest IH]; intros index; cbn.
  - lia.
  - rewrite IH. unfold same_tag at 2.
    destruct (String.eqb (tagName sibling) tag); cbn; lia.
Qed.

(** X12: the number that [getElementIndex] puts into nth-of-type is the
    position of the element among the children of its parent that have its
    tag, counted from 1: it lies between 1 and the number of such children,
    and the child at that position is the element itself. *)
Theorem index_designates_element (el : Located) :
  let sameTagSiblings :=
    List.filter (fun child => String.eqb (tagName child) (tagName (self el)))
      (children el) in
  1 <= getElementIndex el <= length sameTagSiblings /\
  sameTagSiblings !! (getElementIndex el - 1) = Some (self el).
Proof.
  intros sames. unfold getElementIndex. rewrite count_same_length.
  assert (sames = rev (List.filter (same_tag (tagName (self el))) (previous el))
                  ++ self el
                  :: List.filter (same_tag (tagName (self el))) (following el)) as ->.
  { unfold sames, children. rewrite List.filter_app, List.filter_rev. cbn.
    by rewrite String.eqb_refl. }
  set (prev := List.filter _ (previous el)).
  rewrite length_app, length_rev. cbn. split; [lia|].
  apply list_lookup_middle. rewrite length_rev. lia.
Qed.

Lemma usable_filter_idem (l : list string) :
  List.filter usable_class (List.filter usable_class l) = List.filter usable_class l.
Proof.
  induction l as [|c l IH]; [done|]. cbn.
  destruct (usable_class c) eqn:E; cbn; [|done]. by rewrite E, IH.
Qed.

Lemma by_class_strip el : by_class dom (strip_el el) = by_class dom el.
Proof.
  unfold by_class, strip_el. cbn. rewrite usable_filter_idem.
  destruct (classList el) as [|c l] eqn:Hc; [done|].
  destruct (List.filter usable_class (c :: l)) as [|c' l'] eqn:Hf; done.
Qed.

Lemma same_tag_strip tag l :
  length (List.filter (same_tag tag) (map strip_el l))
  = length (List.filter (same_tag tag) l).
Proof.
  induction l as [|c l IH]; [done|]. cbn [map List.filter].
  change (same_tag tag (strip_el c)) with (same_tag tag c).
  destruct (same_tag tag c); cbn [length]; by rewrite IH.
Qed.

Lemma path_step_strip loc has_parent :
  path_step dom (strip_loc loc) has_parent = path_step dom loc has_parent.
Proof.
  unfold path_step, getElementIndex, children. cbn.
  rewrite !count_same_length, same_tag_strip.
  change (fun child => String.eqb (tagName child) (tagName (self loc)))
    with (same_tag (tagName (self loc))).
  rewrite <- map_rev.
  change (strip_el (self loc) :: map strip_el (following loc))
    with (map strip_el (self loc :: following loc)).
  by rewrite <- map_app, same_tag_strip.
Qed.

(** X13: classes that contain a colon, an opening bracket or the word
    focus never influence the selector: removing them from the element,
    from its siblings and from all its ancestors changes neither the
    selector nor the warnings. *)
Theorem filtered_classes_irrelevant (element : Ref) :
  getUniqueSelector dom (map strip_loc element) = getUniqueSelector dom element.
Proof.
  induction element as [|loc parent IH]; [done|].
  cbn [map getUniqueSelector].
  change (by_id dom (self (strip_loc loc))) with (by_id dom (self loc)).
  change (self (strip_loc loc)) with (strip_el (self loc)).
  rewrite by_class_strip.
  destruct (by_id dom (self loc)) as [[idSelector|] w1]; [done|].
  destruct (by_class dom (self loc)) as [[className|] w2]; [done|].
  unfold getPath.
  change (tagName (self (strip_loc loc))) with (tagName (self loc)).
  destruct (String.eqb _ "html"); [done|].
  rewrite IH, path_step_strip.
  by destruct parent.
Qed.

(** X14: the selector of an element depends on nothing above the nearest
    ancestor, or the element itself, that is html or has an id or class
    selector matching exactly one element. *)
Theorem above_anchor_irrelevant (inner : Ref) (anchor : Located)
    (outer outer' : Ref) :
  anchors dom anchor = true ->
  getUniqueSelector dom (inner ++ anchor :: outer)
  = getUniqueSelector dom (inner ++ anchor :: outer').
Proof.
  intros Ha. induction inner as [|loc inner IH].
  - cbn. unfold anchors in Ha.
    destruct (by_id dom (self anchor)) as [[idSelector|] w1]; [done|].
    destruct (by_class dom (self anchor)) as [[className|] w2]; [done|].
    cbn in Ha. by rewrite Ha.
  - cbn [app getUniqueSelector].
    destruct (by_id dom (self loc)) as [[idSelector|] w1]; [done|].
    destruct (by_class dom (self loc)) as [[className|] w2]; [done|].
    unfold getPath. destruct (String.eqb _ "html"); [done|].
    rewrite IH. by destruct inner.
Qed.

Lemma append_nonempty (a b : string) : b <> "" -> a +:+ b <> "".
Proof. destruct a; [done|]. cbn. discriminate. Qed.

Lemma by_id_Some el idSelector w :
  by_id dom el = (Some idSelector, w) ->
  idSelector = "#" +:+ CSS_escape dom (id el) /\ w = [].
Proof.
  unfold by_id. destruct (String.eqb (id el) ""); [done|].
  destruct (querySelectorAll_length dom _) as [[|[|n]]|]; intros [=]; done.
Qed.

Lemma by_class_Some el className w :
  by_class dom el = (Some className, w) ->
  className
  = "." +:+ String.concat "."
              (map (CSS_escape dom) (List.filter usable_class (classList el)))
  /\ w = [].
Proof.
  unfold by_class. destruct (0 <? length (classList el))%nat; [|done].
  destruct (0 <? length (map _ _))%nat; [|done].
  destruct (querySelectorAll_length dom _) as [[|[|n]]|]; intros [=]; done.
Qed.

(** X15: the empty selector is the answer for null and for nothing else:
    every element gets a selector of at least one character. *)
Theorem empty_selector_only_for_null (element : Ref) :
  (getUniqueSelector dom element).1 = "" <-> element = [].
Proof.
  split; [|by intros ->].
  destruct element as [|loc parent]; [done|]. cbn [getUniqueSelector].
  destruct (by_id dom (self loc)) as [[idSelector|] w1] eqn:E1.
  { apply by_id_Some in E1 as [-> _]. done. }
  destruct (by_class dom (self loc)) as [[className|] w2] eqn:E2.
  { apply by_class_Some in E2 as [-> _]. done. }
  unfold getPath. destruct (String.eqb _ "html"); [done|].
  destruct (getUniqueSelector dom parent) as [up w3]. cbn [fst].
  intros H. by apply append_nonempty in H.
Qed.

(** X16: an element that has no parent element, is not html and gets no
    id or class selector is given a selector that starts with the child
    combinator: the selector of its missing parent is the empty text. *)
Theorem parentless_element_selector (loc : Located) :
  anchors dom loc = false ->
  (getUniqueSelector dom [loc]).1
  = " > " +:+ toLowerCase dom (tagName (self loc)).
Proof.
  unfold anchors. cbn [getUniqueSelector].
  destruct (by_id dom (self loc)) as [[idSelector|] w1]; [done|].
  destruct (by_class dom (self loc)) as [[className|] w2]; [done|].
  cbn [fst]. intros Hhtml. unfold getPath. by rewrite Hhtml.
Qed.

End WithDom.

(** ** On the sample document *)

Lemma above_anchor_irrelevant_witness :
  anchors dom0 main0 = true /\
  getUniqueSelector dom0 [input0; main0; body0; html0]
  = getUniqueSelector dom0 [input0; main0].
Proof.
  split; [vm_compute; reflexivity|].
  apply (above_anchor_irrelevant dom0 [input0] main0 [body0; html0] []).
  vm_compute; reflexivity.
Defined.

Lemma parentless_element_selector_witness :
  anchors dom0 input0 = false /\
  (getUniqueSelector dom0 [input0]).1 = " > input".
Proof.
  split; [vm_compute; reflexivity|].
  apply (parentless_element_selector dom0 input0).
  vm_compute; reflexivity.
Defined.

End SelectorFacts.

(** * Facts about RecordAPI *)

Module ApiFacts.
Import Selector Api.

Section WithHost.

Variable env : JsEnv.
Variable URLSearchParams_toString : JsValue -> string.

(** ** The base url only grows *)

Lemma append_assoc (a b c : string) : (a +:+ b) +:+ c = a +:+ b +:+ c.
Proof.
  induction a as [|x a IH]; [done|].
  change (String x ((a +:+ b) +:+ c) = String x (a +:+ b +:+ c)).
  by rewrite IH.
Qed.

Lemma append_empty (a : string) : a +:+ "" = a.
Proof.
  induction a as [|x a IH]; [done|].
  change (String x (a +:+ "") = String x a). by rewrite IH.
Qed.

Lemma prefix_append (a b : string) : String.prefix a (a +:+ b) = true.
Proof.
  induction a as [|x a IH]; [by destruct b|].
  change (String.prefix (String x a) (String x (a +:+ b)) = true).
  cbn [String.prefix]. destruct (ascii_dec x x); [done|congruence].
Qed.

Lemma includes_append (needle a b : string) :
  includes needle (a +:+ needle +:+ b) = true.
Proof.
  induction a as [|x a IH].
  - change ("" +:+ needle +:+ b) with (needle +:+ b).
    destruct (needle +:+ b) eqn:E; cbn [includes].
    all: rewrite <- E, prefix_append; done.
  - change (String x a +:+ needle +:+ b) with (String x (a +:+ needle +:+ b)).
    cbn [includes]. rewrite IH. apply orb_true_r.
Qed.

Lemma calls_grow cs baseUrl r :
  r ∈ (calls env URLSearchParams_toString cs baseUrl).2 ->
  exists more, url r = baseUrl +:+ more +:+ "/api/record".
Proof.
  revert baseUrl. induction cs as [|[m requestParams] rest IH]; intros baseUrl.
  - cbn. by intros ?%elem_of_nil.
  - cbn [calls].
    destruct (requestEventRecordsApi env URLSearchParams_toString m requestParams baseUrl) as [b1 r1] eqn:E1.
    destruct (calls env URLSearchParams_toString rest b1) as [b2 rs] eqn:E2. cbn [snd].
    assert (exists grown, b1 = baseUrl +:+ grown /\
              url r1 = b1 +:+ "/api/record") as (grown & Hb & Hr1).
    { destruct m; cbn in E1; simplify_eq; cbn;
        [by eexists|exists ""; by rewrite append_empty..]. }
    intros [->|Hin]%elem_of_cons.
    + exists grown. by rewrite Hr1, Hb, append_assoc.
    + specialize (IH b1). rewrite E2 in IH. destruct (IH Hin) as [more ->].
      exists (grown +:+ more). by rewrite Hb, !append_assoc.
Qed.

(** X17: a GET writes its query string into the base url for good: the
    url of every later request of the client, whatever its method, starts
    with the base url as it was, the separator and that query string, and
    ends with the path of the service. *)
Theorem get_query_stays baseUrl requestParams cs r :
  r ∈ (calls env URLSearchParams_toString cs (Get env URLSearchParams_toString requestParams baseUrl).1).2 ->
  exists more,
    url r = baseUrl +:+ separator baseUrl
              +:+ URLSearchParams_toString requestParams
              +:+ more +:+ "/api/record".
Proof.
  intros [more Hr]%calls_grow. exists more.
  rewrite Hr. cbn. by rewrite !append_assoc.
Qed.

Lemma prefix_grows (needle a b : string) :
  String.prefix needle a = true -> String.prefix needle (a +:+ b) = true.
Proof.
  revert a. induction needle as [|x needle IH]; intros a.
  - intros _. by destruct (a +:+ b).
  - destruct a as [|y a]; [done|].
    change (String y a +:+ b) with (String y (a +:+ b)).
    cbn [String.prefix]. destruct (ascii_dec x y); [apply IH|done].
Qed.

Lemma includes_grows (needle a b : string) :
  includes needle a = true ->
  includes needle (a +:+ b) = true.
Proof.
  induction a as [|x a IH].
  - cbn [includes]. rewrite orb_false_r. destruct needle; [|done].
    intros _. change ("" +:+ b) with b. by destruct b.
  - change (String x a +:+ b) with (String x (a +:+ b)).
    cbn [includes].
    intros [H|H]%orb_true_iff; apply orb_true_iff.
    + left. by apply (prefix_grows _ (String x a) b).
    + right. by apply IH.
Qed.

Lemma separator_after_get baseUrl queryParams :
  separator (baseUrl +:+ separator baseUrl +:+ queryParams) = "&".
Proof.
  unfold separator at 1.
  replace (includes "?" _) with true; [done|]. symmetry.
  unfold separator. destruct (includes "?" baseUrl) eqn:E.
  - by apply includes_grows.
  - apply includes_append.
Qed.

(** X18: the base url of a client after any sequence of calls is the one
    it was created with followed by the query strings of all the GET calls
    made so far, the first after the separator and the others after an
    ampersand each; calls of the other methods leave it as it is. *)
Theorem base_url_accumulates cs baseUrl :
  (calls env URLSearchParams_toString cs baseUrl).1
  = match queries URLSearchParams_toString cs with
    | [] => baseUrl
    | qs => baseUrl +:+ separator baseUrl +:+ String.concat "&" qs
    end.
Proof.
  revert baseUrl. induction cs as [|[m requestParams] rest IH]; intros baseUrl;
    [done|].
  cbn [calls].
  destruct (requestEventRecordsApi env URLSearchParams_toString m requestParams baseUrl) as [b1 r1] eqn:E1.
  specialize (IH b1). destruct (calls env URLSearchParams_toString rest b1) as [b2 rs]. cbn [fst] in *.
  destruct m; cbn in E1; simplify_eq; cbn [queries flat_map fst snd app];
    fold (queries URLSearchParams_toString rest); [|done..].
  destruct (queries URLSearchParams_toString rest) as [|q qs]; [done|].
  rewrite separator_after_get.
  cbn [String.concat]. by rewrite !append_assoc.
Qed.

End WithHost.

(** ** On the sample client *)

Lemma get_query_stays_witness :
  save0 ∈ (calls env0 query0 [(POST, JNull)] (Get env0 query0 replay0 base0).1).2 /\
  exists more,
    url save0 = base0 +:+ "?" +:+ "name=login" +:+ more +:+ "/api/record".
Proof.
  assert (save0 ∈ (calls env0 query0 [(POST, JNull)]
                     (Get env0 query0 replay0 base0).1).2) as Hin
    by (apply elem_of_cons; left; vm_compute; reflexivity).
  split; [exact Hin|].
  exact (get_query_stays env0 query0 base0 replay0 [(POST, JNull)] save0 Hin).
Defined.

End ApiFacts.

(** * Facts about EventRecorder *)

Module RecorderFacts.
Import Recorder.

Section WithHost.

Variable copy : Copy.
Variable env : JsEnv.
Variable dom : Selector.Dom.

(** ** What a session saves *)

Lemma perform_all_app s tasks1 tasks2 :
  perform_all copy env dom s (tasks1 ++ tasks2)
  = let '(s1, out1) := perform_all copy env dom s tasks1 in
    let '(s2, out2) := perform_all copy env dom s1 tasks2 in
    (s2, out1 ++ out2).
Proof.
  revert s. induction tasks1 as [|t tasks1 IH]; intros s; cbn [app perform_all].
  - by destruct (perform_all copy env dom s tasks2).
  - destruct (perform copy env dom s t) as [s1 out1]. rewrite IH.
    destruct (perform_all copy env dom s1 tasks1) as [s2 out2].
    destruct (perform_all copy env dom s2 tasks2) as [s3 out3]. by rewrite app_assoc.
Qed.

Lemma inserts_app out1 out2 : inserts (out1 ++ out2) = inserts out1 ++ inserts out2.
Proof. apply omap_app. Qed.

Lemma inserts_warn_log ws (lines : list Line) :
  inserts (map Warn ws ++ map Log lines) = [].
Proof.
  rewrite inserts_app.
  assert (forall ws, inserts (map Warn ws) = []) as -> by (intros l; by induction l).
  by induction lines.
Qed.

Lemma handled_recording events steps :
  let '(s, out) := perform_all copy env dom {| isRecording := true; actions := steps |} (handled events) in
  s = {| isRecording := true; actions := steps ++ recorded dom events |} /\
  inserts out = [].
Proof.
  revert steps. induction events as [|[event now] events IH]; intros steps.
  - cbn. by rewrite app_nil_r.
  - cbn [handled map perform_all perform fst snd]. fold (handled events).
    unfold handleEvent, recorded, recordable. cbn [isRecording negb List.filter fst snd].
    destruct (target event) as [|loc parent] eqn:Ht.
    + specialize (IH steps). cbn [actions]. destruct (perform_all copy env dom _ (handled events)) as [s out].
      destruct IH as [-> Hout]. split; [done|].
      by rewrite inserts_app, Hout.
    + destruct (String.eqb (Selector.id (Selector.self loc)) "stopRecord"); cbn [negb].
      * specialize (IH steps). destruct (perform_all copy env dom _ (handled events)) as [s out].
        destruct IH as [-> Hout]. split; [done|].
        by rewrite inserts_app, Hout.
      * destruct (action_of dom event now) as [action warned] eqn:Ha. cbn [actions].
        specialize (IH (steps ++ [action])).
        destruct (perform_all copy env dom _ (handled events)) as [s out].
        destruct IH as [-> Hout]. split.
        -- cbn [map fst snd]. rewrite Ha. cbn [fst].
           by rewrite <- app_assoc.
        -- change (Log (GetEvent event true) :: map Warn warned
                     ++ [Log (RecordEvent action)])
             with ([Log (GetEvent event true)]
                     ++ (map Warn warned ++ map Log [RecordEvent action])).
           by rewrite (inserts_app _ out), Hout, (inserts_app [_]),
             inserts_warn_log.
Qed.

Lemma handled_idle steps events :
  perform_all copy env dom {| isRecording := false; actions := steps |} (handled events)
  = ({| isRecording := false; actions := steps |}, []).
Proof.
  induction events as [|[event now] events IH]; [done|].
  cbn [handled map perform_all perform fst snd]. fold (handled events).
  unfold handleEvent. cbn [isRecording negb]. by rewrite IH.
Qed.

(** X19: a session saves what it recorded.  Whatever the recorder did
    before, after [startRecording], the handling of any events and
    [stopRecording] with a name entered, [Insert] is called once, with that
    name and, as steps, the actions of exactly the handled events that have
    a target other than the stop button, in the order in which they were
    handled; the recorder is off afterwards. *)
Theorem session_saves_recorded s events name :
  name <> "" ->
  let '(s', out) :=
    perform_all copy env dom s (StartRecording :: handled events ++ [StopRecording (Some name)]) in
  inserts out = [requestParams copy env name (recorded dom events)] /\
  isRecording s' = false /\
  actions s' = recorded dom events.
Proof.
  intros Hname. cbn [perform_all perform startRecording].
  rewrite perform_all_app.
  pose proof (handled_recording events []) as H.
  destruct (perform_all copy env dom _ (handled events)) as [s1 out1]. destruct H as [-> Hout1].
  cbn [perform_all perform stopRecording actions app].
  apply String.eqb_neq in Hname. rewrite Hname.
  change (inserts (Log StartRecoding :: ?l)) with (inserts l).
  by rewrite inserts_app, Hout1.
Qed.

(** X20: [stopRecording] neither needs a running session nor clears the
    actions, and events handled while the recorder is off are not recorded:
    after one call of [stopRecording], whatever the user answered, and the
    handling of any events, a further call with a name entered hands
    [Insert] the actions that the recorder held at the first call. *)
Theorem stop_again_saves_same s answer events name :
  name <> "" ->
  let s1 := (stopRecording copy env answer s).1 in
  perform_all copy env dom s1 (handled events ++ [StopRecording (Some name)])
  = ({| isRecording := false; actions := actions s |},
     [Log StopRecodingEnd; Prompt; InsertCall (requestParams copy env name (actions s))]).
Proof.
  intros Hname s1.
  assert (s1 = {| isRecording := false; actions := actions s |}) as ->.
  { unfold s1, stopRecording. destruct answer as [a|]; [|done].
    by destruct (String.eqb a ""). }
  rewrite perform_all_app, handled_idle. cbn [perform_all perform stopRecording actions app].
  apply String.eqb_neq in Hname. by rewrite Hname.
Qed.

Lemma perform_value_ok s t :
  Forall value_ok (actions s) -> Forall value_ok (actions (perform copy env dom s t).1).
Proof.
  intros Hs. destruct t as [|functionName|event now|params|]; cbn [perform];
    [by constructor| | |done..].
  - unfold stopRecording. destruct functionName as [a|]; [|done].
    by destruct (String.eqb a "").
  - unfold handleEvent. destruct (negb (isRecording s)); [done|].
    destruct (target event) as [|loc parent] eqn:Ht; [done|].
    destruct (String.eqb _ "stopRecord"); [done|].
    destruct (action_of dom event now) as [action warned] eqn:Ha. cbn [fst actions].
    apply Forall_app. split; [done|]. apply Forall_singleton.
    unfold action_of in Ha. rewrite Ht in Ha.
    destruct (Selector.getUniqueSelector dom (loc :: parent)) as [sel w].
    simplify_eq. unfold value_ok. cbn [value].
    destruct (truthy (Selector.value (Selector.self loc))) eqn:E; [by left|by right].
Qed.

(** X21: no recorded action carries a falsy value: in every state the
    recorder can reach, the value of each action is truthy or the empty
    text, which stands in for the undefined, null, false, zero and
    not-a-number that an element may hold. *)
Theorem recorded_values_never_falsy tasks :
  Forall (fun a => truthy (value a) = true \/ value a = JStr "")
    (actions (perform_all copy env dom EventRecorder tasks).1).
Proof.
  change (Forall value_ok (actions (perform_all copy env dom EventRecorder tasks).1)).
  assert (Forall value_ok (actions EventRecorder)) as H by constructor.
  revert H. generalize EventRecorder. induction tasks as [|t tasks IH]; intros s Hs;
    [done|].
  cbn [perform_all]. pose proof (perform_value_ok s t Hs) as H1.
  destruct (perform copy env dom s t) as [s1 out1]. specialize (IH s1 H1).
  by destruct (perform_all copy env dom s1 tasks).
Qed.

End WithHost.

(** ** On the sample session *)

Lemma session_saves_recorded_witness :
  "login" <> EmptyString /\
  recorded Selector.dom0 events0 = [typed0] /\
  inserts
    (perform_all First env0 Selector.dom0 EventRecorder
       (StartRecording :: handled events0 ++ [StopRecording (Some "login")])).2
  = [requestParams First env0 "login" (recorded Selector.dom0 events0)].
Proof.
  assert ("login" <> EmptyString) as Hname by discriminate.
  split; [exact Hname|]. split; [vm_compute; reflexivity|].
  pose proof (session_saves_recorded First env0 Selector.dom0 EventRecorder
                events0 "login" Hname) as H.
  destruct (perform_all First env0 Selector.dom0 EventRecorder _) as [s' out].
  exact (proj1 H).
Defined.

Lemma stop_again_saves_same_witness :
  "login" <> EmptyString /\
  perform_all Second env0 Selector.dom0
    (stopRecording Second env0 None {| isRecording := true; actions := [typed0] |}).1
    (handled events0 ++ [StopRecording (Some "login")])
  = ({| isRecording := false; actions := [typed0] |},
     [Log StopRecodingEnd; Prompt;
      InsertCall (requestParams Second env0 "login" [typed0])]).
Proof.
  assert ("login" <> EmptyString) as Hname by discriminate.
  split; [exact Hname|].
  exact (stop_again_saves_same Second env0 Selector.dom0
           {| isRecording := true; actions := [typed0] |} None events0
           "login" Hname).
Defined.

End RecorderFacts.
